(** * TradeFlux matcher: a shallow embedding of [trading-engine.ts]

    The engine is a single mutable object ([TradingEngine]) that owns an
    [OrderStorage].  Both classes are embedded as state-passing functions in
    a small state-and-exception monad.  Order objects live in an object store
    ([heap]) and the per-ticker arrays of the storage hold references into it,
    exactly as the JavaScript arrays hold references to the order objects that
    [addOrder] and [matchOrder] mutate in place.

    Numbers.  The fields [quantity], [price], [shares], ... are JavaScript
    numbers, that is IEEE 754 binary64 values; they are the primitive floats
    of Rocq ([float]), with their rounding, their infinities, their two
    zeros and NaN.  The readings of [Date.now()] and the two counters are
    integers that a binary64 value holds exactly; they are modelled as
    integers.

    Strings.  A JavaScript string is represented by the bytes of its UTF-8
    encoding (a lone surrogate by the three bytes of its generalised
    encoding), so that two strings are equal exactly when their
    representations are.

    The ledger.  [portfolioPositions] is a plain object, and [obj[key]] also
    finds what the object inherits from [Object.prototype]; the members of
    [Object.prototype] and the properties that the engine writes on them are
    part of the state.  The methods are strict code (they are the body of a
    class), where writing a property of a primitive value raises a
    [TypeError]. *)

From Stdlib Require Import Ascii String QArith ZArith Lia Floats.
From Stdlib Require Import Sorting.Sorted Sorting.Permutation.
From stdpp Require Import base list strings gmap pretty.

Local Open Scope string_scope.
Local Open Scope list_scope.
Local Open Scope nat_scope.

(** ** Data model ([types/index.ts]) *)

(** [const MAX_TICKERS = 1024] *)
Definition MAX_TICKERS : nat := 1024.

Inductive OrderType := buy | sell.
Inductive OrderStatus := pending | matched | partial | canceled.

Global Instance OrderType_eq_dec : EqDecision OrderType.
Proof. solve_decision. Defined.
Global Instance OrderStatus_eq_dec : EqDecision OrderStatus.
Proof. solve_decision. Defined.

(** [interface Order]; the field [id] is called [oid] here. *)
Record Order := mkOrder {
  oid : string;
  type : OrderType;
  tickerSymbol : string;
  quantity : float;
  price : float;
  timestamp : Z;
  status : OrderStatus;
  remainingQuantity : float
}.

(** [interface Transaction] *)
Record Transaction := mkTransaction {
  tx_id : string;
  buyOrderId : string;
  sellOrderId : string;
  tx_tickerSymbol : string;
  tx_quantity : float;
  tx_price : float;
  tx_timestamp : Z
}.

(** [interface PortfolioPosition] *)
Record PortfolioPosition := mkPosition {
  symbol : string;
  shares : float;
  averageBuyPrice : float;
  currentValue : float
}.

(** An element [{ symbol, index }] of [OrderStorage.tickerToIndex]. *)
Record TickerEntry := mkEntry {
  entry_symbol : string;
  entry_index : nat
}.

(** A reference to an [Order] object: its position in the object store. *)
Abbreviation ref := nat.

(** The private fields of [class OrderStorage]. *)
Record OrderStorageState := mkStorage {
  buyOrders : list (list ref);
  sellOrders : list (list ref);
  tickerToIndex : list TickerEntry;
  nextIndex : nat
}.

(** The three properties that [updatePortfolio] assigns. *)
Inductive Field := Shares | AverageBuyPrice | CurrentValue.

(** The properties among those three that have been written on an object
    that is not a position ([None]: the object has no such property of its
    own). *)
Record Expando := mkExpando {
  x_shares : option float;
  x_averageBuyPrice : option float;
  x_currentValue : option float
}.
Definition noExpando : Expando := mkExpando None None None.

(** The private fields of [class TradingEngine], together with the part of
    the JavaScript world the engine touches: the store of order objects, the
    clock read by [Date.now()] (an arbitrary sequence of readings, consumed
    one per call), the batches handed to the listeners, and what has been
    written on [Object.prototype] ([objectPrototype]) and on the functions
    that are its members ([builtins], by the name of the member).
    [portfolioPositions] holds the own properties of the ledger object.  A
    listener is identified by a number. *)
Record State := mkState {
  orderStorage : OrderStorageState;
  transactions : list Transaction;
  orderCounter : nat;
  transactionCounter : nat;
  listeners : list nat;
  portfolioPositions : gmap string PortfolioPosition;
  heap : list Order;
  clock : nat → Z;
  ticks : nat;
  delivered : list (nat * list Transaction);
  objectPrototype : Expando;
  builtins : gmap string Expando
}.

(** The errors the engine throws; each is [new Error(message)] in the source,
    apart from [TypeError], which the JavaScript runtime raises when a
    property of [undefined] is read or a property of a primitive value is
    written. *)
Inductive Error :=
  | QuantityMustBePositive          (* 'Quantity must be positive' *)
  | PriceMustBePositive             (* 'Price must be positive' *)
  | TickerSymbolRequired            (* 'Ticker symbol is required' *)
  | NotEnoughShares (sym : string) (held : float)
                                    (* 'Not enough shares of ... to sell. ...' *)
  | MaxTickersReached               (* 'Maximum number of tickers (1024) reached' *)
  | TypeError.

(** The error classes of the specification. *)
Definition InvalidOrderParameters (e : Error) : Prop :=
  e = QuantityMustBePositive ∨ e = PriceMustBePositive ∨ e = TickerSymbolRequired.
Definition InsufficientShares (e : Error) : Prop :=
  ∃ sym held, e = NotEnoughShares sym held.
Definition CapacityExceeded (e : Error) : Prop := e = MaxTickersReached.

(** ** Field updates *)

Definition set_buyOrders (f : list (list ref) → list (list ref))
    (os : OrderStorageState) : OrderStorageState :=
  mkStorage (f (buyOrders os)) (sellOrders os) (tickerToIndex os) (nextIndex os).
Definition set_sellOrders (f : list (list ref) → list (list ref))
    (os : OrderStorageState) : OrderStorageState :=
  mkStorage (buyOrders os) (f (sellOrders os)) (tickerToIndex os) (nextIndex os).
Definition register (e : TickerEntry) (os : OrderStorageState) : OrderStorageState :=
  mkStorage (buyOrders os) (sellOrders os) (tickerToIndex os ++ [e]) (S (nextIndex os)).

Definition set_orderStorage (f : OrderStorageState → OrderStorageState) (st : State) : State :=
  mkState (f (orderStorage st)) (transactions st) (orderCounter st)
    (transactionCounter st) (listeners st) (portfolioPositions st) (heap st)
    (clock st) (ticks st) (delivered st) (objectPrototype st) (builtins st).
Definition set_transactions (f : list Transaction → list Transaction) (st : State) : State :=
  mkState (orderStorage st) (f (transactions st)) (orderCounter st)
    (transactionCounter st) (listeners st) (portfolioPositions st) (heap st)
    (clock st) (ticks st) (delivered st) (objectPrototype st) (builtins st).
Definition set_orderCounter (f : nat → nat) (st : State) : State :=
  mkState (orderStorage st) (transactions st) (f (orderCounter st))
    (transactionCounter st) (listeners st) (portfolioPositions st) (heap st)
    (clock st) (ticks st) (delivered st) (objectPrototype st) (builtins st).
Definition set_transactionCounter (f : nat → nat) (st : State) : State :=
  mkState (orderStorage st) (transactions st) (orderCounter st)
    (f (transactionCounter st)) (listeners st) (portfolioPositions st) (heap st)
    (clock st) (ticks st) (delivered st) (objectPrototype st) (builtins st).
Definition set_listeners (f : list nat → list nat) (st : State) : State :=
  mkState (orderStorage st) (transactions st) (orderCounter st)
    (transactionCounter st) (f (listeners st)) (portfolioPositions st) (heap st)
    (clock st) (ticks st) (delivered st) (objectPrototype st) (builtins st).
Definition set_portfolioPositions
    (f : gmap string PortfolioPosition → gmap string PortfolioPosition)
    (st : State) : State :=
  mkState (orderStorage st) (transactions st) (orderCounter st)
    (transactionCounter st) (listeners st) (f (portfolioPositions st)) (heap st)
    (clock st) (ticks st) (delivered st) (objectPrototype st) (builtins st).
Definition set_heap (f : list Order → list Order) (st : State) : State :=
  mkState (orderStorage st) (transactions st) (orderCounter st)
    (transactionCounter st) (listeners st) (portfolioPositions st) (f (heap st))
    (clock st) (ticks st) (delivered st) (objectPrototype st) (builtins st).
Definition set_ticks (f : nat → nat) (st : State) : State :=
  mkState (orderStorage st) (transactions st) (orderCounter st)
    (transactionCounter st) (listeners st) (portfolioPositions st) (heap st)
    (clock st) (f (ticks st)) (delivered st) (objectPrototype st) (builtins st).
Definition set_delivered
    (f : list (nat * list Transaction) → list (nat * list Transaction))
    (st : State) : State :=
  mkState (orderStorage st) (transactions st) (orderCounter st)
    (transactionCounter st) (listeners st) (portfolioPositions st) (heap st)
    (clock st) (ticks st) (f (delivered st)) (objectPrototype st) (builtins st).
Definition set_objectPrototype (f : Expando → Expando) (st : State) : State :=
  mkState (orderStorage st) (transactions st) (orderCounter st)
    (transactionCounter st) (listeners st) (portfolioPositions st) (heap st)
    (clock st) (ticks st) (delivered st) (f (objectPrototype st)) (builtins st).
Definition set_builtins (f : gmap string Expando → gmap string Expando)
    (st : State) : State :=
  mkState (orderStorage st) (transactions st) (orderCounter st)
    (transactionCounter st) (listeners st) (portfolioPositions st) (heap st)
    (clock st) (ticks st) (delivered st) (objectPrototype st) (f (builtins st)).

(** ** The monad of engine methods: state plus exceptions

    A method maps the state before the call to its outcome and the state
    after the call.  A thrown exception keeps the mutations done before the
    [throw], as in JavaScript. *)

Inductive Outcome (A : Type) :=
  | Return (a : A)
  | Throw (e : Error).
Arguments Return {A} a.
Arguments Throw {A} e.

Definition M (A : Type) : Type := State → Outcome A * State.

Global Instance M_ret : MRet M := λ A a st, (Return a, st).
Global Instance M_bind : MBind M := λ A B f m st,
  match m st with
  | (Return a, st') => f a st'
  | (Throw e, st') => (Throw e, st')
  end.

Definition throw {A} (e : Error) : M A := λ st, (Throw e, st).
Definition gets {A} (f : State → A) : M A := λ st, (Return (f st), st).
Definition modify (f : State → State) : M unit := λ st, (Return tt, f st).
(** [try { m } catch (e) { h }] *)
Definition tryCatch {A} (m : M A) (h : Error → M A) : M A := λ st,
  match m st with
  | (Return a, st') => (Return a, st')
  | (Throw e, st') => h e st'
  end.

(** [Date.now()]: the next reading of the clock. *)
Definition Date_now : M Z := λ st, (Return (clock st (ticks st)), set_ticks S st).

(** Reading a property of the order object behind a reference. *)
Definition deref (r : ref) : M Order := λ st,
  match heap st !! r with
  | Some o => (Return o, st)
  | None => (Throw TypeError, st)
  end.

(** Assignments [order.remainingQuantity = q] and [order.status = s]. *)
Definition write_remainingQuantity (q : float) (o : Order) : Order :=
  mkOrder (oid o) (type o) (tickerSymbol o) (quantity o) (price o) (timestamp o)
    (status o) q.
Definition write_status (s : OrderStatus) (o : Order) : Order :=
  mkOrder (oid o) (type o) (tickerSymbol o) (quantity o) (price o) (timestamp o)
    s (remainingQuantity o).
Definition mutate (r : ref) (f : Order → Order) : M unit := λ st,
  match heap st !! r with
  | Some o => (Return tt, set_heap (λ h : list Order, <[r := f o]> h) st)
  | None => (Throw TypeError, st)
  end.
(** An object literal of type [Order]: a fresh object in the store. *)
Definition new_Order (o : Order) : M ref := λ st,
  (Return (length (heap st)), set_heap (λ h, h ++ [o]) st).

(** ** JavaScript numbers *)

(** [ToNumber] of a value that is a number or [undefined] ([None]). *)
Definition toNumber (v : option float) : float :=
  match v with Some f => f | None => nan end.

(** [ToBoolean] of a number: [false] for the two zeros and for NaN. *)
Definition truthy (f : float) : bool := negb (is_zero f || is_nan f).

(** [v || 0] for a value that is a number or [undefined]. *)
Definition orZero (v : option float) : float :=
  match v with
  | Some f => if truthy f then f else 0%float
  | None => 0%float
  end.

(** [Math.min(a, b)]: NaN when an argument is NaN, and [-0] is less than
    [+0]. *)
Definition Math_min (a b : float) : float :=
  if is_nan a || is_nan b then nan
  else if (a <? b)%float then a
  else if (b <? a)%float then b
  else if get_sign a then a else b.

(** ** [Array.prototype.sort] *)

(** What [sort] reads off the number [v] that a comparator returns.  It
    takes NaN for [+0], places [a] before [b] when [v < 0] and [b] before [a]
    when [v > 0]; [nonpos v] says that [v], after that replacement, is not
    above zero. *)
Class ComparatorResult (V : Type) := nonpos : V → bool.

(** A comparator result that is computed from integers. *)
Global Instance Q_result : ComparatorResult Q := λ v, Qle_bool v 0.

(** The number that a comparator of the storage returns: a binary64 value
    (a difference of prices), or a difference of two timestamps, an integer
    that a binary64 value holds exactly. *)
Inductive Compared :=
  | Double (d : float)
  | Exact (z : Z).
Global Instance Compared_result : ComparatorResult Compared := λ v,
  match v with
  | Double d => is_nan d || (d <=? 0)%float
  | Exact z => (z <=? 0)%Z
  end.

(** [arr.sort(cmp)].  The sort of ECMAScript is stable.  For a comparator
    that orders the elements of the array consistently the result is the
    stable ordering computed here by insertion from the right; for any other
    comparator ECMAScript leaves the order to the implementation, and this
    is one such order (the one of an insertion sort). *)
Fixpoint insertBy {A V} `{ComparatorResult V} (cmp : A → A → V) (x : A)
    (l : list A) : list A :=
  match l with
  | [] => [x]
  | y :: l' => if nonpos (cmp x y) then x :: l else y :: insertBy cmp x l'
  end.
Definition sortBy {A V} `{ComparatorResult V} (cmp : A → A → V) (l : list A) : list A :=
  foldr (insertBy cmp) [] l.

(** [(a, b) => b.price !== a.price ? b.price - a.price : a.timestamp - b.timestamp] *)
Definition cmpBuy (a b : Order) : Compared :=
  if negb (price b =? price a)%float then Double (price b - price a)%float
  else Exact (timestamp a - timestamp b).
(** [(a, b) => a.price !== b.price ? a.price - b.price : a.timestamp - b.timestamp] *)
Definition cmpSell (a b : Order) : Compared :=
  if negb (price a =? price b)%float then Double (price a - price b)%float
  else Exact (timestamp a - timestamp b).

(** Sorting an array of references: the comparator reads the objects. *)
Fixpoint derefAll (l : list ref) : M (list (ref * Order)) :=
  match l with
  | [] => mret []
  | r :: l' => o ← deref r; os ← derefAll l'; mret ((r, o) :: os)
  end.
Definition sortRefs (cmp : Order → Order → Compared) (l : list ref) : M (list ref) :=
  os ← derefAll l;
  mret ((sortBy (λ a b, cmp a.2 b.2) os).*1).

(** ** [class OrderStorage] *)

Module OrderStorage.

(** The linear search of [getTickerIndex]. *)
Fixpoint findTicker (symbol : string) (tbl : list TickerEntry) : option nat :=
  match tbl with
  | [] => None
  | e :: tbl' =>
      if String.eqb (entry_symbol e) symbol then Some (entry_index e)
      else findTicker symbol tbl'
  end.

Definition getTickerIndex (symbol : string) : M nat :=
  os ← gets orderStorage;
  match findTicker symbol (tickerToIndex os) with
  | Some index => mret index
  | None =>
      if nextIndex os <? MAX_TICKERS then
        let index := nextIndex os in
        modify (set_orderStorage (register (mkEntry symbol index)));;
        mret index
      else throw MaxTickersReached
  end.

(** [this.buyOrders[index]] / [this.sellOrders[index]] read as an array.  An
    index outside the arrays gives [undefined] in JavaScript, and the code
    that uses the result as an array then fails with a [TypeError]; the model
    raises it at the read. *)
Definition sideArray (t : OrderType) (index : nat) : M (list ref) :=
  os ← gets orderStorage;
  match (match t with buy => buyOrders os | sell => sellOrders os end) !! index with
  | Some l => mret l
  | None => throw TypeError
  end.
Definition set_sideArray (t : OrderType) (index : nat) (l : list ref) : M unit :=
  modify (set_orderStorage
    (match t with
     | buy => set_buyOrders (λ a : list (list ref), <[index := l]> a)
     | sell => set_sellOrders (λ a : list (list ref), <[index := l]> a)
     end)).

Definition addOrder (order : ref) : M unit :=
  o ← deref order;
  index ← getTickerIndex (tickerSymbol o);
  match type o with
  | buy =>
      l ← sideArray buy index;
      set_sideArray buy index (l ++ [order]);;
      l ← sideArray buy index;
      sorted ← sortRefs cmpBuy l;
      set_sideArray buy index sorted
  | sell =>
      l ← sideArray sell index;
      set_sideArray sell index (l ++ [order]);;
      l ← sideArray sell index;
      sorted ← sortRefs cmpSell l;
      set_sideArray sell index sorted
  end.

(** [try { const index = this.getTickerIndex(symbol); ... } catch (e) { return []; }]:
    only [getTickerIndex] can throw inside the [try]. *)
Definition tryTickerIndex (symbol : string) : M (option nat) :=
  tryCatch (index ← getTickerIndex symbol; mret (Some index))
           (λ _, mret None).

Definition getBuyOrders (symbol : string) : M (list ref) :=
  index ← tryTickerIndex symbol;
  match index with
  | Some index => sideArray buy index
  | None => mret []
  end.

Definition getSellOrders (symbol : string) : M (list ref) :=
  index ← tryTickerIndex symbol;
  match index with
  | Some index => sideArray sell index
  | None => mret []
  end.

(** The loop of [updateOrder]: the first element whose [id] equals
    [order.id] is overwritten with [order]. *)
Fixpoint replaceFirst (h : list Order) (order : ref) (id : string)
    (orders : list ref) : option (list ref) :=
  match orders with
  | [] => Some []
  | r :: rest =>
      match h !! r with
      | None => None
      | Some o =>
          if String.eqb (oid o) id then Some (order :: rest)
          else (r ::.) <$> replaceFirst h order id rest
      end
  end.

Definition updateOrder (order : ref) : M unit :=
  o ← deref order;
  index ← getTickerIndex (tickerSymbol o);
  orders ← sideArray (type o) index;
  h ← gets heap;
  match replaceFirst h order (oid o) orders with
  | Some orders' => set_sideArray (type o) index orders'
  | None => throw TypeError
  end.

(** The loop of [removeOrder]: the first element whose [id] equals
    [order.id] is spliced out. *)
Fixpoint spliceFirst (h : list Order) (id : string)
    (orders : list ref) : option (list ref) :=
  match orders with
  | [] => Some []
  | r :: rest =>
      match h !! r with
      | None => None
      | Some o =>
          if String.eqb (oid o) id then Some rest
          else (r ::.) <$> spliceFirst h id rest
      end
  end.

Definition removeOrder (order : ref) : M unit :=
  o ← deref order;
  index ← getTickerIndex (tickerSymbol o);
  orders ← sideArray (type o) index;
  h ← gets heap;
  match spliceFirst h (oid o) orders with
  | Some orders' => set_sideArray (type o) index orders'
  | None => throw TypeError
  end.

Definition getAllTickers : M (list string) :=
  os ← gets orderStorage;
  mret (entry_symbol <$> tickerToIndex os).

End OrderStorage.

(** ** [class TradingEngine] *)

(** [String.prototype.trim] removes the white space and the line terminators
    of ECMAScript from both ends: U+0009 to U+000D, U+0020, U+00A0, U+1680,
    U+2000 to U+200A, U+2028, U+2029, U+202F, U+205F, U+3000 and U+FEFF.
    [stripWhiteSpace s] removes one such character, by the bytes of its
    encoding, from the front of [s]. *)
Definition stripWhiteSpace (s : string) : option string :=
  match s with
  | EmptyString => None
  | String c1 s1 =>
      match nat_of_ascii c1 with
      | 9 | 10 | 11 | 12 | 13 | 32 => Some s1
      | b1 =>
          match s1 with
          | EmptyString => None
          | String c2 s2 =>
              let b2 := nat_of_ascii c2 in
              if (b1 =? 194) && (b2 =? 160) then Some s2            (* U+00A0 *)
              else
                match s2 with
                | EmptyString => None
                | String c3 s3 =>
                    let b3 := nat_of_ascii c3 in
                    if ((b1 =? 225) && (b2 =? 154) && (b3 =? 128))  (* U+1680 *)
                       || ((b1 =? 226) && (b2 =? 128) &&
                           (((128 <=? b3) && (b3 <=? 138))          (* U+2000 to U+200A *)
                            || (b3 =? 168) || (b3 =? 169)           (* U+2028, U+2029 *)
                            || (b3 =? 175)))                        (* U+202F *)
                       || ((b1 =? 226) && (b2 =? 129) && (b3 =? 159))  (* U+205F *)
                       || ((b1 =? 227) && (b2 =? 128) && (b3 =? 128))  (* U+3000 *)
                       || ((b1 =? 239) && (b2 =? 187) && (b3 =? 191))  (* U+FEFF *)
                    then Some s3 else None
                end
          end
      end
  end.

(** The string without the white space at its front; [n] bounds the number
    of characters removed. *)
Fixpoint trimStartUpTo (n : nat) (s : string) : string :=
  match n with
  | 0 => s
  | S n' =>
      match stripWhiteSpace s with
      | Some s' => trimStartUpTo n' s'
      | None => s
      end
  end.
Definition trimStart (s : string) : string := trimStartUpTo (String.length s) s.

(** A string of white space only. *)
Definition isBlank (s : string) : bool := String.eqb (trimStart s) "".

(** The string without the white space at its end: the longest prefix that
    is not followed by white space only. *)
Fixpoint trimEnd (s : string) : string :=
  match s with
  | EmptyString => EmptyString
  | String c s' => if isBlank s then EmptyString else String c (trimEnd s')
  end.
Definition trim (s : string) : string := trimEnd (trimStart s).

(** [arr.slice(0, count)] for an integer [count]: a negative [count] is taken
    from the end of the array. *)
Definition slice0 {A} (l : list A) (count : Z) : list A :=
  if (count <? 0)%Z
  then take (Z.to_nat (Z.max (Z.of_nat (length l) + count) 0)) l
  else take (Z.to_nat count) l.

(** The sentinels that stand for a counterparty outside the engine. *)
Definition MARKET : string := "market".
Definition AUTO : string := "auto-filled".

(** The members of [Object.prototype] that are functions.  Together with
    the accessor [__proto__] they are what every plain object inherits. *)
Definition prototypeFunctions : list string :=
  [ "constructor"; "__defineGetter__"; "__defineSetter__"; "hasOwnProperty";
    "__lookupGetter__"; "__lookupSetter__"; "isPrototypeOf";
    "propertyIsEnumerable"; "toString"; "valueOf"; "toLocaleString" ].

(** What [this.portfolioPositions[key]] evaluates to: the position that is
    the own property [key] of the ledger, or what the ledger inherits under
    that name: a function of [Object.prototype], [Object.prototype] itself
    (for [__proto__]), a number that the engine has written on
    [Object.prototype], or nothing. *)
Inductive Looked :=
  | Own
  | InheritedFunction
  | InheritedPrototype
  | InheritedNumber (v : float)
  | Undefined.

Definition getField (f : Field) (x : Expando) : option float :=
  match f with
  | Shares => x_shares x
  | AverageBuyPrice => x_averageBuyPrice x
  | CurrentValue => x_currentValue x
  end.
Definition setField (f : Field) (v : float) (x : Expando) : Expando :=
  match f with
  | Shares => mkExpando (Some v) (x_averageBuyPrice x) (x_currentValue x)
  | AverageBuyPrice => mkExpando (x_shares x) (Some v) (x_currentValue x)
  | CurrentValue => mkExpando (x_shares x) (x_averageBuyPrice x) (Some v)
  end.
Definition positionField (f : Field) (p : PortfolioPosition) : float :=
  match f with
  | Shares => shares p
  | AverageBuyPrice => averageBuyPrice p
  | CurrentValue => currentValue p
  end.
Definition write_positionField (f : Field) (v : float) (p : PortfolioPosition)
    : PortfolioPosition :=
  match f with
  | Shares => mkPosition (symbol p) v (averageBuyPrice p) (currentValue p)
  | AverageBuyPrice => mkPosition (symbol p) (shares p) v (currentValue p)
  | CurrentValue => mkPosition (symbol p) (shares p) (averageBuyPrice p) v
  end.

(** The name of a field as a property key. *)
Definition fieldOfKey (key : string) : option Field :=
  if String.eqb key "shares" then Some Shares
  else if String.eqb key "averageBuyPrice" then Some AverageBuyPrice
  else if String.eqb key "currentValue" then Some CurrentValue
  else None.

Module TradingEngine.

(** [`order-${Date.now()}-${this.orderCounter++}`] *)
Definition orderIdOf (t : Z) (c : nat) : string :=
  "order-" +:+ pretty t +:+ "-" +:+ pretty c.
Definition generateOrderId : M string :=
  t ← Date_now;
  c ← gets orderCounter;
  modify (set_orderCounter S);;
  mret (orderIdOf t c).

(** [`tx-${Date.now()}-${this.transactionCounter++}`] *)
Definition generateTransactionId : M string :=
  t ← Date_now;
  c ← gets transactionCounter;
  modify (set_transactionCounter S);;
  mret ("tx-" +:+ pretty t +:+ "-" +:+ pretty c).

(** [for (const order of orders) if (order.id === orderId) return order] *)
Fixpoint findInArray (orderId : string) (orders : list ref) : M (option ref) :=
  match orders with
  | [] => mret None
  | r :: rest =>
      o ← deref r;
      if String.eqb (oid o) orderId then mret (Some r)
      else findInArray orderId rest
  end.

Fixpoint findInTickers (orderId : string) (tickers : list string) : M (option ref) :=
  match tickers with
  | [] => mret None
  | ticker :: rest =>
      buys ← OrderStorage.getBuyOrders ticker;
      found ← findInArray orderId buys;
      match found with
      | Some r => mret (Some r)
      | None =>
          sells ← OrderStorage.getSellOrders ticker;
          found ← findInArray orderId sells;
          match found with
          | Some r => mret (Some r)
          | None => findInTickers orderId rest
          end
      end
  end.

Definition findOrderById (orderId : string) : M (option ref) :=
  if String.eqb orderId MARKET || String.eqb orderId AUTO then mret None
  else
    tickers ← OrderStorage.getAllTickers;
    findInTickers orderId tickers.

Definition isBuyTransaction (transaction : Transaction) : M bool :=
  if String.eqb (sellOrderId transaction) AUTO then mret true
  else if String.eqb (buyOrderId transaction) MARKET then mret false
  else
    buyOrder ← findOrderById (buyOrderId transaction);
    match buyOrder with
    | Some _ => mret true
    | None =>
        sellOrder ← findOrderById (sellOrderId transaction);
        match sellOrder with
        | Some _ => mret false
        | None => mret false
        end
    end.

(** [this.portfolioPositions[key]] *)
Definition lookupPosition (key : string) : M Looked :=
  gets (λ st,
    match portfolioPositions st !! key with
    | Some _ => Own
    | None =>
        if String.eqb key "__proto__" then InheritedPrototype
        else if bool_decide (key ∈ prototypeFunctions) then InheritedFunction
        else
          match fieldOfKey key with
          | Some f =>
              match getField f (objectPrototype st) with
              | Some v => InheritedNumber v
              | None => Undefined
              end
          | None => Undefined
          end
    end).

(** [ToBoolean] of what was looked up: objects and functions are true. *)
Definition truthyLooked (x : Looked) : bool :=
  match x with
  | Own | InheritedFunction | InheritedPrototype => true
  | InheritedNumber v => truthy v
  | Undefined => false
  end.

(** [position.f] for the value [position] that was looked up under [key]: a
    position has the three fields; a function has what was written on it
    and inherits the rest from [Object.prototype]; a number inherits from
    [Object.prototype] through [Number.prototype]; reading a property of
    [undefined] is a [TypeError].  The result is [None] when the property is
    [undefined]. *)
Definition readProp (key : string) (f : Field) (position : Looked)
    : M (option float) :=
  match position with
  | Own =>
      ps ← gets portfolioPositions;
      match ps !! key with
      | Some p => mret (Some (positionField f p))
      | None => throw TypeError
      end
  | InheritedFunction =>
      bs ← gets builtins;
      op ← gets objectPrototype;
      match getField f (default noExpando (bs !! key)) with
      | Some v => mret (Some v)
      | None => mret (getField f op)
      end
  | InheritedPrototype | InheritedNumber _ =>
      op ← gets objectPrototype;
      mret (getField f op)
  | Undefined => throw TypeError
  end.

(** [position.f = v]: the position, the function or [Object.prototype] gets
    the property; a number cannot (the methods of a class are strict
    code). *)
Definition writeProp (key : string) (f : Field) (v : float) (position : Looked)
    : M unit :=
  match position with
  | Own => modify (set_portfolioPositions (alter (write_positionField f v) key))
  | InheritedFunction =>
      modify (set_builtins
                (λ bs, <[key := setField f v (default noExpando (bs !! key))]> bs))
  | InheritedPrototype => modify (set_objectPrototype (setField f v))
  | InheritedNumber _ | Undefined => throw TypeError
  end.

Definition updatePortfolio (transaction : Transaction) : M unit :=
  let sym := tx_tickerSymbol transaction in
  let qty := tx_quantity transaction in
  let prc := tx_price transaction in
  found ← lookupPosition sym;
  (if negb (truthyLooked found)
   then modify (set_portfolioPositions (<[sym := mkPosition sym 0 0 prc]>))
   else mret tt);;
  position ← lookupPosition sym;
  isBuy ← isBuyTransaction transaction;
  (if isBuy : bool then
     totalSharesBefore ← readProp sym Shares position;
     let newShares := (toNumber totalSharesBefore + qty)%float in
     average ← readProp sym AverageBuyPrice position;
     writeProp sym AverageBuyPrice
       ((toNumber totalSharesBefore * toNumber average + qty * prc) / newShares)%float
       position;;
     writeProp sym Shares newShares position
   else
     before ← readProp sym Shares position;
     writeProp sym Shares (toNumber before - qty)%float position;;
     after ← readProp sym Shares position;
     if (toNumber after <=? 0)%float
     then modify (set_portfolioPositions (delete sym))
     else mret tt);;
  found ← lookupPosition sym;
  if truthyLooked found then writeProp sym CurrentValue prc found
  else mret tt.

(** The listeners are called in order with the batch; the model records
    each call and takes a listener to return without touching the engine. *)
Definition notifyListeners (txs : list Transaction) : M unit :=
  ls ← gets listeners;
  modify (set_delivered (λ d, d ++ ((λ l, (l, txs)) <$> ls))).

Definition addTransactionListener (listener : nat) : M unit :=
  modify (set_listeners (λ ls, ls ++ [listener])).

Fixpoint removeFirst (listener : nat) (ls : list nat) : list nat :=
  match ls with
  | [] => []
  | l :: ls' => if Nat.eqb l listener then ls' else l :: removeFirst listener ls'
  end.
Definition removeTransactionListener (listener : nat) : M unit :=
  modify (set_listeners (removeFirst listener)).

(** [oppositeOrder.timestamp < order.timestamp ? oppositeOrder.price : order.price] *)
Definition transactionPrice (order oppositeOrder : Order) : float :=
  if (timestamp oppositeOrder <? timestamp order)%Z then price oppositeOrder
  else price order.

(** The body of the loop of [matchOrder] from the creation of the
    transaction on; returns the transaction and [orderFilled]. *)
Definition cross (order oppositeOrder : ref) : M (Transaction * bool) :=
  o ← deref order;
  c ← deref oppositeOrder;
  let matchedQuantity := Math_min (remainingQuantity o) (remainingQuantity c) in
  let transactionPrice := transactionPrice o c in
  tid ← generateTransactionId;
  now ← Date_now;
  let transaction :=
    mkTransaction tid
      (match type o with buy => oid o | sell => oid c end)
      (match type o with sell => oid o | buy => oid c end)
      (tickerSymbol o) matchedQuantity transactionPrice now in
  updatePortfolio transaction;;
  o ← deref order;
  mutate order (write_remainingQuantity (remainingQuantity o - matchedQuantity)%float);;
  c ← deref oppositeOrder;
  mutate oppositeOrder
    (write_remainingQuantity (remainingQuantity c - matchedQuantity)%float);;
  o ← deref order;
  orderFilled ← (if (remainingQuantity o =? 0)%float
                 then mutate order (write_status matched);; mret true
                 else mutate order (write_status partial);; mret false);
  c ← deref oppositeOrder;
  (if (remainingQuantity c =? 0)%float
   then mutate oppositeOrder (write_status matched);;
        OrderStorage.updateOrder oppositeOrder
   else mutate oppositeOrder (write_status partial);;
        OrderStorage.updateOrder oppositeOrder);;
  modify (set_transactions (λ l, l ++ [transaction]));;
  mret (transaction, orderFilled).

(** [for (const oppositeOrder of ordersToProcess) { ... }]; the result is
    [newTransactions] and [orderFilled] at the end of the loop. *)
Fixpoint matchLoop (order : ref) (ordersToProcess : list ref)
    (newTransactions : list Transaction) : M (list Transaction * bool) :=
  match ordersToProcess with
  | [] => mret (newTransactions, false)
  | oppositeOrder :: rest =>
      c ← deref oppositeOrder;
      if bool_decide (status c = matched) || bool_decide (status c = canceled)
         || (remainingQuantity c <=? 0)%float
      then matchLoop order rest newTransactions
      else
        o ← deref order;
        let priceMatches :=
          match type o with
          | buy => (price c <=? price o)%float
          | sell => (price o <=? price c)%float
          end in
        if negb priceMatches then matchLoop order rest newTransactions
        else
          '(transaction, orderFilled) ← cross order oppositeOrder;
          if orderFilled : bool then mret (newTransactions ++ [transaction], true)
          else matchLoop order rest (newTransactions ++ [transaction])
  end.

Definition matchOrder (order : ref) : M (list Transaction) :=
  o ← deref order;
  oppositeOrders ← (match type o with
                    | sell => OrderStorage.getBuyOrders (tickerSymbol o)
                    | buy => OrderStorage.getSellOrders (tickerSymbol o)
                    end);
  if length oppositeOrders =? 0 then mret []
  else
    '(newTransactions, orderFilled) ← matchLoop order oppositeOrders [];
    o ← deref order;
    (if negb orderFilled && (0 <? remainingQuantity o)%float
     then OrderStorage.updateOrder order
     else mret tt);;
    mret newTransactions.

(** The common tail of the two branches of [addOrder] that fill an
    unmatched order: the transaction is applied to the portfolio, logged and
    announced, and the order is marked as matched. *)
Definition fillWith (order : ref) (transaction : Transaction) : M unit :=
  updatePortfolio transaction;;
  modify (set_transactions (λ l, l ++ [transaction]));;
  notifyListeners [transaction];;
  mutate order (write_status matched);;
  mutate order (write_remainingQuantity 0);;
  OrderStorage.updateOrder order.

(** The validation at the head of [addOrder].  The number in the message of
    the last error is [position?.shares || 0]. *)
Definition validate (t : OrderType) (sym : string) (qty prc : float) : M unit :=
  if (qty <=? 0)%float then throw QuantityMustBePositive
  else if (prc <=? 0)%float then throw PriceMustBePositive
  else if String.eqb (trim sym) "" then throw TickerSymbolRequired
  else
    match t with
    | buy => mret tt
    | sell =>
        position ← lookupPosition sym;
        match position with
        | Undefined => throw (NotEnoughShares sym 0)
        | _ =>
            held ← readProp sym Shares position;
            if negb (truthyLooked position) || (toNumber held <? qty)%float
            then throw (NotEnoughShares sym (orZero held))
            else mret tt
        end
    end.

(** The creation of the order object and its insertion in the book. *)
Definition createOrder (t : OrderType) (sym : string) (qty prc : float) : M ref :=
  id ← generateOrderId;
  now ← Date_now;
  order ← new_Order (mkOrder id t sym qty prc now pending qty);
  OrderStorage.addOrder order;;
  mret order.

(** What [addOrder] does with the transactions of [matchOrder]. *)
Definition settle (t : OrderType) (order : ref)
    (newTransactions : list Transaction) : M unit :=
  if bool_decide (t = buy) && (length newTransactions =? 0) then
    tid ← generateTransactionId;
    o ← deref order;
    now ← Date_now;
    let syntheticTransaction :=
      mkTransaction tid (oid o) AUTO (tickerSymbol o) (quantity o) (price o) now in
    fillWith order syntheticTransaction
  else if bool_decide (t = sell) && (length newTransactions =? 0) then
    tid ← generateTransactionId;
    o ← deref order;
    now ← Date_now;
    let sellTransaction :=
      mkTransaction tid MARKET (oid o) (tickerSymbol o) (quantity o) (price o) now in
    fillWith order sellTransaction
  else if 0 <? length newTransactions then notifyListeners newTransactions
  else mret tt.

Definition addOrder (t : OrderType) (sym : string) (qty prc : float) : M ref :=
  validate t sym qty prc;;
  order ← createOrder t sym qty prc;
  newTransactions ← matchOrder order;
  settle t order newTransactions;;
  mret order.

(** [getPortfolio]: the field [positions] of the result,
    [{ ...this.portfolioPositions }], the own properties of the ledger.  The
    field [totalValue] is a floating-point sum over the positions in the
    order in which JavaScript enumerates the properties, which the finite map
    of the model does not record; it is left out.  The method changes
    nothing. *)
Definition getPortfolio : M (gmap string PortfolioPosition) :=
  gets portfolioPositions.

Definition getBuyOrders (sym : string) : M (list ref) :=
  OrderStorage.getBuyOrders sym.
Definition getSellOrders (sym : string) : M (list ref) :=
  OrderStorage.getSellOrders sym.

Definition getTransactions : M (list Transaction) := gets transactions.

(** [[...this.transactions].sort((a, b) => b.timestamp - a.timestamp).slice(0, count)] *)
Definition getRecentTransactions (count : Z) : M (list Transaction) :=
  txs ← gets transactions;
  let sorted := sortBy (λ a b, inject_Z (tx_timestamp b - tx_timestamp a)) txs in
  mret (slice0 sorted count).

Definition getAvailableTickers : M (list string) := OrderStorage.getAllTickers.

(** [new TradingEngine()] in a world whose clock gives [clk] and in which
    nothing has been written on [Object.prototype] or its members. *)
Definition init (clk : nat → Z) : State :=
  mkState (mkStorage (replicate MAX_TICKERS []) (replicate MAX_TICKERS []) [] 0)
    [] 0 0 [] ∅ [] clk 0 [] noExpando ∅.

End TradingEngine.

(** ** The calls of the public interface and the states they reach *)

Inductive Call :=
  | CallAddOrder (t : OrderType) (sym : string) (qty prc : float)
  | CallGetBuyOrders (sym : string)
  | CallGetSellOrders (sym : string)
  | CallFindOrderById (orderId : string)
  | CallGetPortfolio
  | CallGetTransactions
  | CallGetRecentTransactions (count : Z)
  | CallGetAvailableTickers
  | CallAddTransactionListener (listener : nat)
  | CallRemoveTransactionListener (listener : nat).

(** The state after a call, whether it returned or threw. *)
Definition after (c : Call) (st : State) : State :=
  match c with
  | CallAddOrder t sym qty prc => (TradingEngine.addOrder t sym qty prc st).2
  | CallGetBuyOrders sym => (TradingEngine.getBuyOrders sym st).2
  | CallGetSellOrders sym => (TradingEngine.getSellOrders sym st).2
  | CallFindOrderById orderId => (TradingEngine.findOrderById orderId st).2
  | CallGetPortfolio => (TradingEngine.getPortfolio st).2
  | CallGetTransactions => (TradingEngine.getTransactions st).2
  | CallGetRecentTransactions count => (TradingEngine.getRecentTransactions count st).2
  | CallGetAvailableTickers => (TradingEngine.getAvailableTickers st).2
  | CallAddTransactionListener l => (TradingEngine.addTransactionListener l st).2
  | CallRemoveTransactionListener l => (TradingEngine.removeTransactionListener l st).2
  end.

Inductive reachable : State → Prop :=
  | reachable_init clk : reachable (TradingEngine.init clk)
  | reachable_after c st : reachable st → reachable (after c st).

(** ** Specification predicates *)

(** The registered symbols, in the order of the registry. *)
Definition symbols (st : State) : list string :=
  entry_symbol <$> tickerToIndex (orderStorage st).

(** The fields of an order that the engine never assigns after creation. *)
Definition static_eq (o o' : Order) : Prop :=
  oid o' = oid o ∧ type o' = type o ∧ tickerSymbol o' = tickerSymbol o ∧
  quantity o' = quantity o ∧ price o' = price o ∧ timestamp o' = timestamp o.

(** The object store over time: every object stays, with its static
    fields. *)
Definition heap_evolves (h h' : list Order) : Prop :=
  ∀ r o, h !! r = Some o → ∃ o', h' !! r = Some o' ∧ static_eq o o'.

(** Every order of side [t] that rests in slot [i] is a live object of that
    side whose symbol owns the slot. *)
Definition book_side_ok (t : OrderType) (h : list Order) (tbl : list TickerEntry)
    (arr : list (list ref)) : Prop :=
  ∀ i l r, arr !! i = Some l → r ∈ l →
    ∃ o, h !! r = Some o ∧ type o = t ∧
         OrderStorage.findTicker (tickerSymbol o) tbl = Some i.

(** The array of one side of the book, and its update. *)
Definition side (t : OrderType) (os : OrderStorageState) : list (list ref) :=
  match t with buy => buyOrders os | sell => sellOrders os end.
Definition set_side (t : OrderType) (f : list (list ref) → list (list ref))
    (os : OrderStorageState) : OrderStorageState :=
  match t with buy => set_buyOrders f os | sell => set_sellOrders f os end.

(** The invariant of the engine state: the shape of the storage and of the
    registry, and the identity of the order objects. *)
Record Inv (st : State) : Prop := mkInv {
  inv_buy_len : length (buyOrders (orderStorage st)) = MAX_TICKERS;
  inv_sell_len : length (sellOrders (orderStorage st)) = MAX_TICKERS;
  inv_next : nextIndex (orderStorage st) = length (tickerToIndex (orderStorage st));
  inv_cap : nextIndex (orderStorage st) ≤ MAX_TICKERS;
  inv_index : ∀ i e, tickerToIndex (orderStorage st) !! i = Some e → entry_index e = i;
  inv_nodup : NoDup (symbols st);
  inv_ids : ∀ r o, heap st !! r = Some o →
    ∃ t c, oid o = TradingEngine.orderIdOf t c ∧ c < orderCounter st;
  inv_uniq : ∀ r1 r2 o1 o2, heap st !! r1 = Some o1 → heap st !! r2 = Some o2 →
    oid o1 = oid o2 → r1 = r2;
  inv_buy_book :
    book_side_ok buy (heap st) (tickerToIndex (orderStorage st))
      (buyOrders (orderStorage st));
  inv_sell_book :
    book_side_ok sell (heap st) (tickerToIndex (orderStorage st))
      (sellOrders (orderStorage st))
}.

(** ** Definitions used by the statements and their proofs *)

(** The state with another ledger and other properties on the members of
    [Object.prototype]. *)
Definition set_ledger (ps : gmap string PortfolioPosition) (op : Expando)
    (bs : gmap string Expando) (st : State) : State :=
  set_builtins (λ _, bs) (set_objectPrototype (λ _, op)
    (set_portfolioPositions (λ _, ps) st)).

(** [st'] is [st] but for the ledger and the members of [Object.prototype]. *)
Definition ledger_only (st st' : State) : Prop :=
  ∃ ps op bs, st' = set_ledger ps op bs st.

Fixpoint dashfree (s : string) : Prop :=
  match s with
  | EmptyString => True
  | String c s' => c ≠ "-"%char ∧ dashfree s'
  end.

(** The fields of the engine that the storage never touches. *)
Definition same_ledger_log (st st' : State) : Prop :=
  transactions st' = transactions st ∧
  portfolioPositions st' = portfolioPositions st ∧
  listeners st' = listeners st ∧
  delivered st' = delivered st ∧
  transactionCounter st' = transactionCounter st ∧
  clock st' = clock st ∧
  objectPrototype st' = objectPrototype st ∧
  builtins st' = builtins st.

(** The order object that [addOrder] creates in state [st]. *)
Definition newOrder (st : State) (t : OrderType) (sym : string) (qty prc : float) : Order :=
  mkOrder (TradingEngine.orderIdOf (clock st (ticks st)) (orderCounter st)) t sym qty prc
    (clock st (S (ticks st))) pending qty.

(** The transaction that [cross] creates in state [st]. *)
Definition crossing (st : State) (o c : Order) : Transaction :=
  mkTransaction
    ("tx-" +:+ pretty (clock st (ticks st)) +:+ "-" +:+ pretty (transactionCounter st))
    (match type o with buy => oid o | sell => oid c end)
    (match type o with sell => oid o | buy => oid c end)
    (tickerSymbol o)
    (Math_min (remainingQuantity o) (remainingQuantity c))
    (TradingEngine.transactionPrice o c)
    (clock st (S (ticks st))).

(** [tx] records a crossing of the incoming order [o] with the book entry
    [c]: it names both orders and carries the price of [TradingEngine.transactionPrice]. *)
Definition crossing_of (o c : Order) (tx : Transaction) : Prop :=
  tx_price tx = TradingEngine.transactionPrice o c ∧
  buyOrderId tx = (match type o with buy => oid o | sell => oid c end) ∧
  sellOrderId tx = (match type o with sell => oid o | buy => oid c end) ∧
  tx_tickerSymbol tx = tickerSymbol o.

(** What matching and settling leave alone, and how the object store and the
    log move. *)
Definition matched_frame (st st' : State) : Prop :=
  orderStorage st' = orderStorage st ∧ orderCounter st' = orderCounter st ∧
  listeners st' = listeners st ∧ clock st' = clock st ∧
  length (heap st') = length (heap st) ∧
  heap_evolves (heap st) (heap st') ∧
  transactions st `prefix_of` transactions st'.

(** A computation that, from a state with the invariant, touches the ledger
    and the members of [Object.prototype] only, and fails with a [TypeError]
    if it fails. *)
Definition ledger_op {A} (m : M A) : Prop :=
  ∀ st, Inv st → ledger_only st (m st).2 ∧ ∀ e, (m st).1 = Throw e → e = TypeError.

(** A live order: an object whose symbol is registered. *)
Definition live (st : State) (r : ref) : Prop :=
  ∃ o k, heap st !! r = Some o ∧
         OrderStorage.findTicker (tickerSymbol o) (tickerToIndex (orderStorage st)) = Some k.

(** A state with the invariant in which the orders [rs] are live, and the
    computations that move such a state within [matched_frame], whether they
    return or throw. *)
Definition ready (rs : list ref) (st : State) : Prop :=
  Inv st ∧ ∀ r, r ∈ rs → live st r.
Definition keeps {A} (rs : list ref) (m : M A) : Prop :=
  ∀ st, ready rs st → matched_frame st (m st).2.

(** Every value that the computation returns satisfies [Q]. *)
Definition yields {A} (Q : A → Prop) (m : M A) : Prop :=
  ∀ st a st', m st = (Return a, st') → Q a.

(** [oppositeType] in [matchOrder]. *)
Definition opposite (t : OrderType) : OrderType :=
  match t with buy => sell | sell => buy end.

(** The transaction [addOrder] makes up for an order that met no
    counterparty in state [st]. *)
Definition synthetic (st : State) (o : Order) : Transaction :=
  let tid := "tx-" +:+ pretty (clock st (ticks st)) +:+ "-" +:+
             pretty (transactionCounter st) in
  let now := clock st (S (ticks st)) in
  match type o with
  | buy => mkTransaction tid (oid o) AUTO (tickerSymbol o) (quantity o) (price o) now
  | sell => mkTransaction tid MARKET (oid o) (tickerSymbol o) (quantity o) (price o) now
  end.

(** The order after [addOrder] has marked it as filled. *)
Definition settled (o : Order) : Order :=
  write_remainingQuantity 0 (write_status matched o).

(** A clock for the examples: one millisecond every third reading. *)
Definition clk0 (n : nat) : Z := (1700000000000 + Z.of_nat n / 3)%Z.

(** The snapshot of the book for one side of a symbol. *)
Definition snapshot (t : OrderType) (sym : string) : M (list ref) :=
  match t with
  | buy => TradingEngine.getBuyOrders sym
  | sell => TradingEngine.getSellOrders sym
  end.

(** The comparator of [getRecentTransactions]. *)
Definition cmpRecent (a b : Transaction) : Q :=
  inject_Z (tx_timestamp b - tx_timestamp a).

(** A clock with eight readings to the millisecond. *)
Definition clk8 (n : nat) : Z := (1700000000000 + Z.of_nat n / 8)%Z.

(** The symbols ["T0"], ["T1"], ... and the state after the book has been
    queried for each symbol of a list in turn. *)
Definition tickerName (i : nat) : string := "T" +:+ pretty i.
Definition queryAll (ss : list string) (st : State) : State :=
  foldl (λ st s, after (CallGetBuyOrders s) st) st ss.

(** The book of [st'] holds the orders of the book of [st], slot by slot,
    and possibly [r]. *)
Definition book_grows (st st' : State) (r : ref) : Prop :=
  ∀ t i l x, side t (orderStorage st') !! i = Some l → x ∈ l →
    x = r ∨ ∃ l0, side t (orderStorage st) !! i = Some l0 ∧ x ∈ l0.

(** ** Running the monad *)

Lemma bind_run {A B} (m : M A) (f : A → M B) st :
  (m ≫= f) st =
  match m st with
  | (Return a, st') => f a st'
  | (Throw e, st') => (Throw e, st')
  end.
Proof. reflexivity. Qed.

Lemma ret_run {A} (a : A) st : (mret a : M A) st = (Return a, st).
Proof. reflexivity. Qed.

Lemma deref_Some r o st : heap st !! r = Some o → deref r st = (Return o, st).
Proof. unfold deref. intros ->. reflexivity. Qed.

(** ** The symbol registry *)

Import OrderStorage.

Lemma findTicker_app s t1 t2 :
  findTicker s (t1 ++ t2) =
  match findTicker s t1 with Some i => Some i | None => findTicker s t2 end.
Proof.
  induction t1 as [|e t1 IH]; simpl; [reflexivity|].
  destruct (String.eqb (entry_symbol e) s); auto.
Qed.

Lemma findTicker_None s tbl :
  findTicker s tbl = None ↔ s ∉ entry_symbol <$> tbl.
Proof.
  induction tbl as [|e tbl IH]; simpl.
  - split; [intros _; apply not_elem_of_nil | reflexivity].
  - destruct (String.eqb_spec (entry_symbol e) s) as [->|Hne].
    + split; [discriminate|]. intros H. exfalso. apply H. left.
    + rewrite IH, not_elem_of_cons.
      split; [intros ?; split; [congruence|assumption] | intros [_ ?]; assumption].
Qed.

Lemma findTicker_Some_elem s tbl k :
  findTicker s tbl = Some k →
  ∃ i e, tbl !! i = Some e ∧ entry_symbol e = s ∧ entry_index e = k.
Proof.
  induction tbl as [|e tbl IH]; simpl; [discriminate|].
  destruct (String.eqb_spec (entry_symbol e) s) as [Heq|Hne].
  - intros [= <-]. exists 0, e. auto.
  - intros H. destruct (IH H) as (i & e' & ? & ? & ?). exists (S i), e'. auto.
Qed.

Lemma findTicker_lookup s tbl k :
  (∀ i e, tbl !! i = Some e → entry_index e = i) →
  NoDup (entry_symbol <$> tbl) →
  (entry_symbol <$> tbl) !! k = Some s →
  findTicker s tbl = Some k.
Proof.
  intros Hidx Hnd Hk.
  destruct (findTicker s tbl) as [k'|] eqn:Hf.
  - destruct (findTicker_Some_elem _ _ _ Hf) as (i & e & Hi & Hs & Hk').
    rewrite (Hidx _ _ Hi) in Hk'. subst k'. f_equal.
    eapply NoDup_lookup; [exact Hnd| |exact Hk].
    rewrite list_lookup_fmap, Hi. simpl. congruence.
  - apply findTicker_None in Hf. exfalso. apply Hf.
    eapply list_elem_of_lookup_2. exact Hk.
Qed.

(** [getTickerIndex] in full. *)
Lemma getTickerIndex_run s st :
  getTickerIndex s st =
  match findTicker s (tickerToIndex (orderStorage st)) with
  | Some index => (Return index, st)
  | None =>
      if nextIndex (orderStorage st) <? MAX_TICKERS
      then (Return (nextIndex (orderStorage st)),
            set_orderStorage (register (mkEntry s (nextIndex (orderStorage st)))) st)
      else (Throw MaxTickersReached, st)
  end.
Proof.
  unfold getTickerIndex. rewrite bind_run. simpl.
  destruct (findTicker s _); [reflexivity|].
  destruct (_ <? _); reflexivity.
Qed.

Lemma getTickerIndex_known s st k :
  findTicker s (tickerToIndex (orderStorage st)) = Some k →
  getTickerIndex s st = (Return k, st).
Proof. intros H. rewrite getTickerIndex_run, H. reflexivity. Qed.

Lemma tryTickerIndex_run s st :
  tryTickerIndex s st =
  match findTicker s (tickerToIndex (orderStorage st)) with
  | Some index => (Return (Some index), st)
  | None =>
      if nextIndex (orderStorage st) <? MAX_TICKERS
      then (Return (Some (nextIndex (orderStorage st))),
            set_orderStorage (register (mkEntry s (nextIndex (orderStorage st)))) st)
      else (Return None, st)
  end.
Proof.
  unfold tryTickerIndex, tryCatch. rewrite bind_run, getTickerIndex_run.
  destruct (findTicker s _); [reflexivity|].
  destruct (_ <? _); reflexivity.
Qed.

(** ** Frame properties of the invariant *)

Ltac proj := unfold symbols, set_ledger in *;
  cbn [orderStorage transactions orderCounter transactionCounter
  listeners portfolioPositions heap clock ticks delivered objectPrototype builtins
  set_orderStorage set_transactions set_orderCounter set_transactionCounter
  set_listeners set_portfolioPositions set_heap set_ticks set_delivered
  set_objectPrototype set_builtins
  buyOrders sellOrders tickerToIndex nextIndex set_buyOrders set_sellOrders
  register fst snd] in *.

Ltac mrun :=
  repeat first
    [ rewrite bind_run
    | rewrite ret_run
    | progress unfold gets, modify, throw
    | progress cbn beta iota ].

Lemma run_pair {A} (m : M A) st a : (m st).1 = Return a → m st = (Return a, (m st).2).
Proof. destruct (m st) as [x st']. simpl. intros ->. reflexivity. Qed.

(** The invariant reads the storage, the object store and the order counter
    only. *)
Lemma Inv_frame st st' :
  orderStorage st' = orderStorage st → heap st' = heap st →
  orderCounter st ≤ orderCounter st' → Inv st → Inv st'.
Proof.
  intros Hs Hh Hc [Hbl Hsl Hnx Hcap Hidx Hnd Hids Huniq Hbb Hsb].
  constructor; unfold symbols in *; rewrite ?Hs, ?Hh; try assumption.
  intros r o Hr. destruct (Hids r o Hr) as (t & c & ? & ?).
  exists t, c. split; [assumption|lia].
Qed.

Lemma static_eq_refl o : static_eq o o.
Proof. repeat split. Qed.

Lemma static_eq_trans o1 o2 o3 : static_eq o1 o2 → static_eq o2 o3 → static_eq o1 o3.
Proof. unfold static_eq. intuition congruence. Qed.

Lemma heap_evolves_refl h : heap_evolves h h.
Proof. intros r o Hr. exists o. split; [exact Hr|apply static_eq_refl]. Qed.

Lemma heap_evolves_trans h1 h2 h3 :
  heap_evolves h1 h2 → heap_evolves h2 h3 → heap_evolves h1 h3.
Proof.
  intros H12 H23 r o Hr. destruct (H12 r o Hr) as (o2 & Hr2 & He2).
  destruct (H23 r o2 Hr2) as (o3 & Hr3 & He3).
  exists o3. split; [exact Hr3|eapply static_eq_trans; eassumption].
Qed.

Lemma heap_evolves_app h o : heap_evolves h (h ++ [o]).
Proof.
  intros r o' Hr. exists o'. split; [|apply static_eq_refl].
  apply lookup_app_l_Some. exact Hr.
Qed.

Lemma heap_evolves_insert (h : list Order) r o o' :
  h !! r = Some o → static_eq o o' → heap_evolves h (<[r := o']> h).
Proof.
  intros Hr He x ox Hx. destruct (decide (x = r)) as [->|Hne].
  - exists o'. rewrite list_lookup_insert_eq by (eapply lookup_lt_Some; eassumption).
    split; [reflexivity|]. replace ox with o by congruence. exact He.
  - exists ox. rewrite list_lookup_insert_ne by congruence.
    split; [exact Hx|apply static_eq_refl].
Qed.

(** An object of the later store is an object of the earlier one. *)
Lemma heap_evolves_back (h h' : list Order) r o' :
  length h' = length h → heap_evolves h h' → h' !! r = Some o' →
  ∃ o, h !! r = Some o ∧ static_eq o o'.
Proof.
  intros Hlen Hev Hr.
  assert (Hlt : r < length h) by (rewrite <- Hlen; eapply lookup_lt_Some; eassumption).
  destruct (lookup_lt_is_Some_2 _ _ Hlt) as [o Ho].
  destruct (Hev r o Ho) as (o2 & Ho2 & Hst). exists o. split; [exact Ho|]. congruence.
Qed.

(** A change of the object store that keeps every object and its static
    fields keeps the invariant of the engine. *)
Lemma Inv_heap st st' :
  orderStorage st' = orderStorage st → orderCounter st' = orderCounter st →
  length (heap st') = length (heap st) →
  heap_evolves (heap st) (heap st') →
  Inv st → Inv st'.
Proof.
  intros Hs Hc Hlen Hto [Hbl Hsl Hnx Hcap Hidx Hnd Hids Huniq Hbb Hsb].
  assert (Hback : ∀ r o', heap st' !! r = Some o' →
            ∃ o, heap st !! r = Some o ∧ static_eq o o').
  { intros r o'. apply heap_evolves_back; assumption. }
  constructor; unfold symbols in *; rewrite ?Hs, ?Hc; try assumption.
  - intros r o' Hr. destruct (Hback r o' Hr) as (o & Ho & (Hid & _)).
    rewrite Hid. eauto.
  - intros r1 r2 o1 o2 H1 H2 Heq.
    destruct (Hback r1 o1 H1) as (p1 & Hp1 & (Hid1 & _)).
    destruct (Hback r2 o2 H2) as (p2 & Hp2 & (Hid2 & _)).
    eapply Huniq; eauto. congruence.
  - intros i l r Hl Hr. destruct (Hbb i l r Hl Hr) as (o & Ho & Ht & Hf).
    destruct (Hto r o Ho) as (o' & Ho' & (_ & Hty & Hsym & _)).
    exists o'. rewrite Hty, Hsym. auto.
  - intros i l r Hl Hr. destruct (Hsb i l r Hl Hr) as (o & Ho & Ht & Hf).
    destruct (Hto r o Ho) as (o' & Ho' & (_ & Hty & Hsym & _)).
    exists o'. rewrite Hty, Hsym. auto.
Qed.

Lemma Inv_register st s :
  Inv st →
  findTicker s (tickerToIndex (orderStorage st)) = None →
  nextIndex (orderStorage st) < MAX_TICKERS →
  Inv (set_orderStorage (register (mkEntry s (nextIndex (orderStorage st)))) st).
Proof.
  intros [Hbl Hsl Hnx Hcap Hidx Hnd Hids Huniq Hbb Hsb] Hnone Hlt.
  constructor; proj; try assumption.
  - rewrite length_app. simpl. lia.
  - intros i e Hi. apply lookup_app_Some in Hi as [Hi|[Hge Hi]]; [eauto|].
    destruct (i - length (tickerToIndex (orderStorage st))) eqn:Hd; simpl in Hi;
      [|by rewrite lookup_nil in Hi].
    injection Hi as <-. simpl. lia.
  - rewrite fmap_app. apply NoDup_app. split; [assumption|]. split.
    + intros x Hx Hx'. simpl in Hx'. apply list_elem_of_singleton in Hx'. subst x.
      apply findTicker_None in Hnone. contradiction.
    + simpl. apply NoDup_singleton.
  - intros i l r Hl Hr. destruct (Hbb i l r Hl Hr) as (o & Ho & Ht & Hf).
    exists o. rewrite findTicker_app, Hf. auto.
  - intros i l r Hl Hr. destruct (Hsb i l r Hl Hr) as (o & Ho & Ht & Hf).
    exists o. rewrite findTicker_app, Hf. auto.
Qed.

(** A registered symbol has a slot inside both arrays of the storage. *)
Lemma slot_in_range st s k :
  Inv st → findTicker s (tickerToIndex (orderStorage st)) = Some k →
  k < MAX_TICKERS.
Proof.
  intros [Hbl Hsl Hnx Hcap Hidx Hnd Hids Huniq Hbb Hsb] Hf. destruct (findTicker_Some_elem _ _ _ Hf) as (i & e & Hi & _ & Hk).
  rewrite (Hidx _ _ Hi) in Hk. subst i.
  apply lookup_lt_Some in Hi. lia.
Qed.

Lemma sideArray_run t i l st :
  side t (orderStorage st) !! i = Some l →
  sideArray t i st = (Return l, st).
Proof.
  intros H. unfold sideArray. rewrite bind_run. simpl.
  destruct t; simpl in H; rewrite H; reflexivity.
Qed.

Lemma side_lookup st t k :
  Inv st → k < MAX_TICKERS →
  ∃ l, side t (orderStorage st) !! k = Some l.
Proof.
  intros [Hbl Hsl Hnx Hcap Hidx Hnd Hids Huniq Hbb Hsb] Hk. apply lookup_lt_is_Some_2. destruct t; simpl; lia.
Qed.

Lemma getBuyOrders_known st s k :
  Inv st → findTicker s (tickerToIndex (orderStorage st)) = Some k →
  ∃ l, buyOrders (orderStorage st) !! k = Some l ∧
       getBuyOrders s st = (Return l, st).
Proof.
  intros HI Hf.
  destruct (side_lookup st buy k HI (slot_in_range _ _ _ HI Hf)) as [l Hl].
  exists l. split; [exact Hl|].
  unfold getBuyOrders. rewrite bind_run, tryTickerIndex_run, Hf.
  apply (sideArray_run buy). exact Hl.
Qed.

Lemma getSellOrders_known st s k :
  Inv st → findTicker s (tickerToIndex (orderStorage st)) = Some k →
  ∃ l, sellOrders (orderStorage st) !! k = Some l ∧
       getSellOrders s st = (Return l, st).
Proof.
  intros HI Hf.
  destruct (side_lookup st sell k HI (slot_in_range _ _ _ HI Hf)) as [l Hl].
  exists l. split; [exact Hl|].
  unfold getSellOrders. rewrite bind_run, tryTickerIndex_run, Hf.
  apply (sideArray_run sell). exact Hl.
Qed.

Import TradingEngine.

Lemma findInArray_run id l st :
  (∀ r, r ∈ l → is_Some (heap st !! r)) →
  ∃ x, findInArray id l st = (Return x, st).
Proof.
  induction l as [|r l IH]; intros Hv; simpl.
  - eexists. reflexivity.
  - destruct (Hv r) as [o Ho]; [left|].
    rewrite bind_run, (deref_Some _ _ _ Ho).
    destruct (String.eqb (oid o) id).
    + eexists. reflexivity.
    + apply IH. intros r' Hr'. apply Hv. right. exact Hr'.
Qed.

Lemma book_refs_valid st t i l :
  Inv st →
  side t (orderStorage st) !! i = Some l →
  ∀ r, r ∈ l → is_Some (heap st !! r).
Proof.
  intros [Hbl Hsl Hnx Hcap Hidx Hnd Hids Huniq Hbb Hsb] Hl r Hr. destruct t.
  - destruct (Hbb i l r Hl Hr) as (o & Ho & _). eauto.
  - destruct (Hsb i l r Hl Hr) as (o & Ho & _). eauto.
Qed.

Lemma findInTickers_run id tickers st :
  Inv st → (∀ s, s ∈ tickers → s ∈ symbols st) →
  ∃ x, findInTickers id tickers st = (Return x, st).
Proof.
  intros HI. induction tickers as [|s tickers IH]; intros Hsub; simpl.
  - eexists. reflexivity.
  - destruct (findTicker s (tickerToIndex (orderStorage st))) as [k|] eqn:Hf.
    2:{ apply findTicker_None in Hf. exfalso. apply Hf. apply Hsub. left. }
    destruct (getBuyOrders_known st s k HI Hf) as (lb & Hlb & Hgb).
    destruct (getSellOrders_known st s k HI Hf) as (ls & Hls & Hgs).
    destruct (findInArray_run id lb st (book_refs_valid st buy k lb HI Hlb)) as [xb Hxb].
    destruct (findInArray_run id ls st (book_refs_valid st sell k ls HI Hls)) as [xs Hxs].
    rewrite bind_run, Hgb, bind_run, Hxb.
    destruct xb; [eexists; reflexivity|].
    rewrite bind_run, Hgs, bind_run, Hxs.
    destruct xs; [eexists; reflexivity|].
    apply IH. intros s' Hs'. apply Hsub. right. exact Hs'.
Qed.

Lemma findOrderById_run id st :
  Inv st → ∃ x, findOrderById id st = (Return x, st).
Proof.
  intros HI. unfold findOrderById.
  destruct (String.eqb id MARKET || String.eqb id AUTO); [eexists; reflexivity|].
  unfold getAllTickers. rewrite bind_run, bind_run. simpl.
  apply findInTickers_run; [exact HI|]. auto.
Qed.

Lemma isBuyTransaction_run tx st :
  Inv st → ∃ b, isBuyTransaction tx st = (Return b, st).
Proof.
  intros HI. unfold isBuyTransaction.
  destruct (String.eqb (sellOrderId tx) AUTO); [eexists; reflexivity|].
  destruct (String.eqb (buyOrderId tx) MARKET); [eexists; reflexivity|].
  destruct (findOrderById_run (buyOrderId tx) st HI) as [x Hx].
  rewrite bind_run, Hx. destruct x; [eexists; reflexivity|].
  destruct (findOrderById_run (sellOrderId tx) st HI) as [y Hy].
  rewrite bind_run, Hy. destruct y; eexists; reflexivity.
Qed.

(** ** The ledger *)

Lemma set_ledger_same st :
  set_ledger (portfolioPositions st) (objectPrototype st) (builtins st) st = st.
Proof. destruct st. reflexivity. Qed.

Lemma set_ledger_twice ps op bs ps' op' bs' st :
  set_ledger ps' op' bs' (set_ledger ps op bs st) = set_ledger ps' op' bs' st.
Proof. reflexivity. Qed.

Lemma Inv_ledger ps op bs st : Inv st → Inv (set_ledger ps op bs st).
Proof. intros HI. eapply Inv_frame; [| | |exact HI]; reflexivity. Qed.

Lemma ledger_only_refl st : ledger_only st st.
Proof. eexists _, _, _. symmetry. apply set_ledger_same. Qed.

Lemma ledger_only_trans st1 st2 st3 :
  ledger_only st1 st2 → ledger_only st2 st3 → ledger_only st1 st3.
Proof.
  intros (ps & op & bs & ->) (ps' & op' & bs' & ->).
  eexists _, _, _. apply set_ledger_twice.
Qed.

Lemma Inv_ledger_only st st' : Inv st → ledger_only st st' → Inv st'.
Proof. intros HI (ps & op & bs & ->). apply Inv_ledger. exact HI. Qed.

Lemma ledger_op_bind {A B} (m : M A) (k : A → M B) :
  ledger_op m → (∀ a, ledger_op (k a)) → ledger_op (m ≫= k).
Proof.
  intros Hm Hk st HI. rewrite bind_run.
  destruct (Hm st HI) as [Hl He]. destruct (m st) as [[a|e] st1]; simpl in *.
  - destruct (Hk a st1 (Inv_ledger_only _ _ HI Hl)) as [Hl' He'].
    split; [eapply ledger_only_trans; eassumption|exact He'].
  - split; [exact Hl|]. intros e' [= <-]. apply He. reflexivity.
Qed.

Lemma ledger_op_ret {A} (a : A) : ledger_op (mret a : M A).
Proof. intros st _. split; [apply ledger_only_refl|discriminate]. Qed.

Lemma ledger_op_gets {A} (f : State → A) : ledger_op (gets f).
Proof. intros st _. split; [apply ledger_only_refl|discriminate]. Qed.

Lemma ledger_op_throw {A} : ledger_op (throw TypeError : M A).
Proof. intros st _. split; [apply ledger_only_refl|]. intros e [= <-]. reflexivity. Qed.

Lemma ledger_op_positions f : ledger_op (modify (set_portfolioPositions f)).
Proof.
  intros st _. split; [|discriminate].
  exists (f (portfolioPositions st)), (objectPrototype st), (builtins st).
  destruct st. reflexivity.
Qed.

Lemma ledger_op_builtins f : ledger_op (modify (set_builtins f)).
Proof.
  intros st _. split; [|discriminate].
  exists (portfolioPositions st), (objectPrototype st), (f (builtins st)).
  destruct st. reflexivity.
Qed.

Lemma ledger_op_objectPrototype f : ledger_op (modify (set_objectPrototype f)).
Proof.
  intros st _. split; [|discriminate].
  exists (portfolioPositions st), (f (objectPrototype st)), (builtins st).
  destruct st. reflexivity.
Qed.

Lemma ledger_op_isBuyTransaction tx : ledger_op (isBuyTransaction tx).
Proof.
  intros st HI. destruct (isBuyTransaction_run tx st HI) as [b ->].
  split; [apply ledger_only_refl|discriminate].
Qed.

Lemma ledger_op_lookupPosition key : ledger_op (lookupPosition key).
Proof. apply ledger_op_gets. Qed.

Lemma ledger_op_readProp key f x : ledger_op (readProp key f x).
Proof.
  destruct x; unfold readProp.
  - apply ledger_op_bind; [apply ledger_op_gets|]. intros ps.
    destruct (ps !! key); [apply ledger_op_ret|apply ledger_op_throw].
  - apply ledger_op_bind; [apply ledger_op_gets|]. intros bs.
    apply ledger_op_bind; [apply ledger_op_gets|]. intros op.
    destruct (getField f _); apply ledger_op_ret.
  - apply ledger_op_bind; [apply ledger_op_gets|]. intros op. apply ledger_op_ret.
  - apply ledger_op_bind; [apply ledger_op_gets|]. intros op. apply ledger_op_ret.
  - apply ledger_op_throw.
Qed.

Lemma ledger_op_writeProp key f v x : ledger_op (writeProp key f v x).
Proof.
  destruct x; unfold writeProp.
  - apply ledger_op_positions.
  - apply ledger_op_builtins.
  - apply ledger_op_objectPrototype.
  - apply ledger_op_throw.
  - apply ledger_op_throw.
Qed.

Lemma ledger_op_updatePortfolio tx : ledger_op (updatePortfolio tx).
Proof.
  unfold updatePortfolio.
  apply ledger_op_bind; [apply ledger_op_lookupPosition|]. intros found.
  apply ledger_op_bind.
  { destruct (negb _); [apply ledger_op_positions|apply ledger_op_ret]. }
  intros _.
  apply ledger_op_bind; [apply ledger_op_lookupPosition|]. intros position.
  apply ledger_op_bind; [apply ledger_op_isBuyTransaction|]. intros isBuy.
  apply ledger_op_bind.
  { destruct isBuy.
    - apply ledger_op_bind; [apply ledger_op_readProp|]. intros s.
      apply ledger_op_bind; [apply ledger_op_readProp|]. intros a.
      apply ledger_op_bind; [apply ledger_op_writeProp|]. intros _.
      apply ledger_op_writeProp.
    - apply ledger_op_bind; [apply ledger_op_readProp|]. intros s.
      apply ledger_op_bind; [apply ledger_op_writeProp|]. intros _.
      apply ledger_op_bind; [apply ledger_op_readProp|]. intros s'.
      destruct (_ <=? _)%float; [apply ledger_op_positions|apply ledger_op_ret]. }
  intros _.
  apply ledger_op_bind; [apply ledger_op_lookupPosition|]. intros found'.
  destruct (truthyLooked found'); [apply ledger_op_writeProp|apply ledger_op_ret].
Qed.

(** [updatePortfolio] changes the ledger only, and either returns or raises
    a [TypeError]. *)
Lemma updatePortfolio_run tx st :
  Inv st →
  ∃ out ps op bs, updatePortfolio tx st = (out, set_ledger ps op bs st) ∧
                  (out = Return tt ∨ out = Throw TypeError).
Proof.
  intros HI. destruct (ledger_op_updatePortfolio tx st HI) as [(ps & op & bs & Hl) He].
  destruct (updatePortfolio tx st) as [out st'] eqn:Hrun. simpl in *. subst st'.
  exists out, ps, op, bs. split; [reflexivity|].
  destruct out as [[]|e]; [left; reflexivity|right]. rewrite (He e eq_refl). reflexivity.
Qed.

(** The validation reads the state and leaves it alone. *)
Lemma readProp_state key f x st : (readProp key f x st).2 = st.
Proof.
  destruct x; unfold readProp; mrun; try reflexivity.
  - destruct (portfolioPositions st !! key); reflexivity.
  - destruct (getField f _); reflexivity.
Qed.

Lemma validate_state t sym qty prc st : (validate t sym qty prc st).2 = st.
Proof.
  unfold validate.
  destruct (qty <=? 0)%float; [reflexivity|].
  destruct (prc <=? 0)%float; [reflexivity|].
  destruct (String.eqb (trim sym) ""); [reflexivity|].
  destruct t; [reflexivity|]. unfold lookupPosition. mrun.
  set (x := match portfolioPositions st !! sym with Some _ => Own | None => _ end).
  assert (Hr := readProp_state sym Shares x st).
  destruct x; try reflexivity;
    mrun; destruct (readProp sym Shares _ st) as [[held|e] st']; simpl in Hr; subst st';
    try reflexivity; destruct (_ || _); reflexivity.
Qed.

(** ** Order identifiers are unique *)

Lemma dashfree_pretty_N_go x s : dashfree s → dashfree (pretty_N_go x s).
Proof.
  revert s. induction (N.lt_wf_0 x) as [x _ IH]; intros s Hs.
  assert (x = 0 ∨ 0 < x)%N as [->|Hx] by lia.
  - rewrite pretty_N_go_0. exact Hs.
  - rewrite pretty_N_go_step by exact Hx. apply IH.
    + apply N.div_lt; [exact Hx|reflexivity].
    + split; [|exact Hs]. unfold pretty_N_char.
      repeat case_match; discriminate.
Qed.

Lemma dashfree_pretty_nat (c : nat) : dashfree (pretty c).
Proof.
  unfold pretty, pretty_nat, pretty, pretty_N.
  case_decide.
  - simpl. split; [discriminate|exact I].
  - apply dashfree_pretty_N_go. exact I.
Qed.

Lemma append_nil s : "" +:+ s = s.
Proof. reflexivity. Qed.
Lemma append_cons c a s : String c a +:+ s = String c (a +:+ s).
Proof. reflexivity. Qed.

Lemma dashfree_no_dash a d : ¬ dashfree (a +:+ "-" +:+ d).
Proof.
  induction a as [|c a IH]; repeat (rewrite append_cons || rewrite append_nil).
  - intros [H _]. apply H. reflexivity.
  - intros [_ H]. exact (IH H).
Qed.

Lemma app_dash_inj a1 a2 d1 d2 :
  dashfree d1 → dashfree d2 →
  a1 +:+ "-" +:+ d1 = a2 +:+ "-" +:+ d2 → d1 = d2.
Proof.
  intros H1 H2. revert a2.
  induction a1 as [|c a1 IH]; intros [|c2 a2];
    repeat (rewrite append_cons || rewrite append_nil).
  - intros [= H]. exact H.
  - intros [= _ H]. exfalso. rewrite H in H1. exact (dashfree_no_dash _ _ H1).
  - intros [= _ H]. exfalso. rewrite <- H in H2. exact (dashfree_no_dash _ _ H2).
  - intros [= _ H]. exact (IH _ H).
Qed.

Lemma orderIdOf_inj t1 c1 t2 c2 : orderIdOf t1 c1 = orderIdOf t2 c2 → c1 = c2.
Proof.
  unfold orderIdOf. repeat (rewrite append_cons || rewrite append_nil).
  intros [= H]. change (pretty t1 +:+ "-" +:+ pretty c1 = pretty t2 +:+ "-" +:+ pretty c2) in H.
  apply app_dash_inj in H; auto using dashfree_pretty_nat.
  exact (pretty_nat_inj _ _ H).
Qed.

(** ** Sorting *)

Lemma insertBy_Permutation {A V} `{ComparatorResult V} (cmp : A → A → V) x l :
  Permutation (insertBy cmp x l) (x :: l).
Proof.
  induction l as [|y l IH]; simpl; [reflexivity|].
  destruct (nonpos (cmp x y)); [reflexivity|].
  rewrite IH. apply perm_swap.
Qed.

Lemma sortBy_Permutation {A V} `{ComparatorResult V} (cmp : A → A → V) l :
  Permutation (sortBy cmp l) l.
Proof.
  induction l as [|x l IH]; simpl; [reflexivity|].
  rewrite insertBy_Permutation. apply perm_skip. exact IH.
Qed.

(** With a comparator that orders the elements consistently, the result is
    in order. *)
Section sorting.
Context {A V : Type} `{ComparatorResult V} (cmp : A → A → V).
Let R (x y : A) : Prop := nonpos (cmp x y) = true.
Hypothesis R_total : ∀ x y, R x y ∨ R y x.
Hypothesis R_trans : ∀ x y z, R x y → R y z → R x z.

Lemma insertBy_sorted x l :
  StronglySorted R l → StronglySorted R (insertBy cmp x l).
Proof.
  induction 1 as [|y l Hs IH Hy]; simpl.
  - constructor; constructor.
  - destruct (nonpos (cmp x y)) eqn:Hc.
    + constructor; [constructor; assumption|].
      constructor; [exact Hc|].
      eapply Forall_impl; [exact Hy|]. intros z Hz. eapply R_trans; eassumption.
    + constructor; [exact IH|].
      rewrite insertBy_Permutation. constructor; [|exact Hy].
      destruct (R_total x y) as [Hxy|Hyx]; [|exact Hyx].
      unfold R in Hxy. congruence.
Qed.

Lemma sortBy_sorted l : StronglySorted R (sortBy cmp l).
Proof.
  induction l as [|x l IH]; simpl; [constructor|].
  apply insertBy_sorted. exact IH.
Qed.
End sorting.

Lemma StronglySorted_lookup_lt {A} (R : A → A → Prop) l i j x y :
  StronglySorted R l → i < j → l !! i = Some x → l !! j = Some y → R x y.
Proof.
  intros Hs. revert i j. induction Hs as [|z l Hs IH Hz]; intros i j Hij Hi Hj.
  - rewrite lookup_nil in Hi. discriminate.
  - destruct j as [|j]; [lia|]. simpl in Hj.
    destruct i as [|i]; simpl in Hi.
    + injection Hi as ->. rewrite Forall_forall in Hz. apply Hz.
      eapply list_elem_of_lookup_2. exact Hj.
    + eapply IH; [|exact Hi|exact Hj]. lia.
Qed.

Lemma inject_Z_nonpos z : (inject_Z z <= 0)%Q ↔ (z ≤ 0)%Z.
Proof. change 0%Q with (inject_Z 0). rewrite <- Zle_Qle. reflexivity. Qed.

Lemma derefAll_run l st :
  (∀ r, r ∈ l → is_Some (heap st !! r)) →
  ∃ ps, derefAll l st = (Return ps, st) ∧ ps.*1 = l ∧
        ∀ r o, (r, o) ∈ ps → heap st !! r = Some o.
Proof.
  induction l as [|r l IH]; intros Hv; simpl.
  - exists []. split; [reflexivity|]. split; [reflexivity|].
    intros r o H. apply elem_of_nil in H. contradiction.
  - destruct (Hv r) as [o Ho]; [left|].
    destruct IH as (ps & Hps & Hfst & Hin).
    { intros r' Hr'. apply Hv. right. exact Hr'. }
    exists ((r, o) :: ps). mrun. rewrite (deref_Some _ _ _ Ho). mrun.
    rewrite Hps. mrun. split; [reflexivity|].
    split; [rewrite fmap_cons, Hfst; reflexivity|].
    intros r' o' H. apply elem_of_cons in H as [[= -> ->]|H]; [exact Ho|eauto].
Qed.

(** Sorting an array of live references returns a rearrangement of it. *)
Lemma sortRefs_run cmp l st :
  (∀ r, r ∈ l → is_Some (heap st !! r)) →
  ∃ l', sortRefs cmp l st = (Return l', st) ∧ Permutation l' l.
Proof.
  intros Hv.
  destruct (derefAll_run l st Hv) as (ps & Hps & Hfst & Hin).
  unfold sortRefs. mrun. rewrite Hps. mrun.
  eexists. split; [reflexivity|].
  rewrite sortBy_Permutation, Hfst. reflexivity.
Qed.

Lemma mutate_run r f o st :
  heap st !! r = Some o →
  mutate r f st = (Return tt, set_heap (λ h : list Order, <[r := f o]> h) st).
Proof. unfold mutate. intros ->. reflexivity. Qed.

(** [updateOrder] finds the order itself and stores it back. *)
Lemma replaceFirst_same h r o l :
  (∀ r1 r2 o1 o2, h !! r1 = Some o1 → h !! r2 = Some o2 → oid o1 = oid o2 → r1 = r2) →
  h !! r = Some o →
  (∀ x, x ∈ l → is_Some (h !! x)) →
  replaceFirst h r (oid o) l = Some l.
Proof.
  intros Huniq Hr. induction l as [|x l IH]; intros Hv; simpl; [reflexivity|].
  destruct (Hv x) as [ox Hox]; [left|]. rewrite Hox.
  destruct (String.eqb_spec (oid ox) (oid o)) as [Heq|Hne].
  - rewrite (Huniq x r ox o Hox Hr Heq). reflexivity.
  - rewrite IH; [reflexivity|]. intros y Hy. apply Hv. right. exact Hy.
Qed.

Lemma set_sideArray_same t i l st :
  side t (orderStorage st) !! i = Some l →
  set_sideArray t i l st = (Return tt, st).
Proof.
  intros H. unfold set_sideArray, modify. f_equal.
  destruct st as [os ? ? ? ? ? ? ? ? ? ? ?], os as [bs ss tbl n], t; simpl in *;
    unfold set_orderStorage, set_buyOrders, set_sellOrders; simpl;
    rewrite (list_insert_id _ _ _ H); reflexivity.
Qed.

Lemma updateOrder_id st r o k :
  Inv st → heap st !! r = Some o →
  findTicker (tickerSymbol o) (tickerToIndex (orderStorage st)) = Some k →
  updateOrder r st = (Return tt, st).
Proof.
  intros HI Hr Hf.
  destruct (side_lookup st (type o) k HI (slot_in_range _ _ _ HI Hf)) as [l Hl].
  unfold updateOrder. mrun. rewrite (deref_Some _ _ _ Hr). mrun.
  rewrite (getTickerIndex_known _ _ _ Hf). mrun.
  rewrite (sideArray_run _ _ _ _ Hl). mrun.
  rewrite (replaceFirst_same (heap st) r o l).
  - apply set_sideArray_same. exact Hl.
  - apply (inv_uniq st HI).
  - exact Hr.
  - eapply book_refs_valid; eassumption.
Qed.

(** ** Creating an order *)

(** A fresh object with the next identifier keeps the invariant. *)
Lemma Inv_extend st st' o t :
  orderStorage st' = orderStorage st →
  heap st' = heap st ++ [o] →
  orderCounter st' = S (orderCounter st) →
  oid o = orderIdOf t (orderCounter st) →
  Inv st → Inv st'.
Proof.
  intros Hs Hh Hc Hid HI.
  assert (Hold : ∀ r o', heap st !! r = Some o' → heap st' !! r = Some o').
  { intros r o' Hr. rewrite Hh. apply lookup_app_l_Some. exact Hr. }
  assert (Hnew : ∀ r o', heap st' !! r = Some o' →
            heap st !! r = Some o' ∨ (r = length (heap st) ∧ o' = o)).
  { intros r o' Hr. rewrite Hh in Hr.
    apply lookup_app_Some in Hr as [Hr|[Hge Hr]]; [left; exact Hr|right].
    destruct (r - length (heap st)) eqn:Hd; simpl in Hr;
      [|rewrite lookup_nil in Hr; discriminate].
    injection Hr as <-. split; [lia|reflexivity]. }
  assert (Hfresh : ∀ r o', heap st !! r = Some o' → oid o' ≠ oid o).
  { intros r o' Hr Heq. destruct (inv_ids st HI r o' Hr) as (t' & c' & Hid' & Hlt).
    rewrite Hid, Hid' in Heq. apply orderIdOf_inj in Heq. lia. }
  destruct HI as [Hbl Hsl Hnx Hcap Hidx Hnd Hids Huniq Hbb Hsb].
  constructor; unfold symbols in *; rewrite ?Hs, ?Hc; try assumption.
  - intros r o' Hr. destruct (Hnew r o' Hr) as [Hr'|[-> ->]].
    + destruct (Hids r o' Hr') as (t' & c' & ? & ?). exists t', c'. split; [done|lia].
    + exists t, (orderCounter st). split; [exact Hid|lia].
  - intros r1 r2 o1 o2 H1 H2 Heq.
    destruct (Hnew r1 o1 H1) as [H1'|[-> ->]], (Hnew r2 o2 H2) as [H2'|[-> ->]].
    + eapply Huniq; eassumption.
    + exfalso. eapply Hfresh; eassumption.
    + exfalso. eapply Hfresh; [eassumption|]. symmetry. exact Heq.
    + reflexivity.
  - intros i l r Hl Hr. destruct (Hbb i l r Hl Hr) as (o' & Ho' & ?).
    exists o'. split; [apply Hold; exact Ho'|assumption].
  - intros i l r Hl Hr. destruct (Hsb i l r Hl Hr) as (o' & Ho' & ?).
    exists o'. split; [apply Hold; exact Ho'|assumption].
Qed.

(** Storing an array that holds one more live order of the right side and
    symbol keeps the invariant. *)
Lemma Inv_place st t k l l' r o :
  Inv st →
  side t (orderStorage st) !! k = Some l →
  heap st !! r = Some o → type o = t →
  findTicker (tickerSymbol o) (tickerToIndex (orderStorage st)) = Some k →
  Permutation l' (l ++ [r]) →
  Inv (set_orderStorage (set_side t (λ a : list (list ref), <[k := l']> a)) st).
Proof.
  intros HI Hl Hr Ht Hf Hperm.
  assert (Hin : ∀ x, x ∈ l' → x ∈ l ∨ x = r).
  { intros x Hx. rewrite Hperm in Hx. apply elem_of_app in Hx as [Hx|Hx]; [auto|].
    apply list_elem_of_singleton in Hx. auto. }
  assert (Hk : k < length (side t (orderStorage st))).
  { apply lookup_lt_Some in Hl. exact Hl. }
  destruct HI as [Hbl Hsl Hnx Hcap Hidx Hnd Hids Huniq Hbb Hsb].
  destruct t; unfold side, set_side in *.
  - constructor; proj; try assumption.
    + rewrite length_insert. assumption.
    + intros i l0 x Hl0 Hx. destruct (decide (i = k)) as [->|Hne].
      * rewrite list_lookup_insert_eq in Hl0 by exact Hk. injection Hl0 as <-.
        destruct (Hin x Hx) as [Hx'| ->]; [eapply Hbb; eassumption|].
        exists o. auto.
      * rewrite list_lookup_insert_ne in Hl0 by congruence.
        eapply Hbb; eassumption.
  - constructor; proj; try assumption.
    + rewrite length_insert. assumption.
    + intros i l0 x Hl0 Hx. destruct (decide (i = k)) as [->|Hne].
      * rewrite list_lookup_insert_eq in Hl0 by exact Hk. injection Hl0 as <-.
        destruct (Hin x Hx) as [Hx'| ->]; [eapply Hsb; eassumption|].
        exists o. auto.
      * rewrite list_lookup_insert_ne in Hl0 by congruence.
        eapply Hsb; eassumption.
Qed.

Lemma side_set_side t f os : side t (set_side t f os) = f (side t os).
Proof. destruct t; reflexivity. Qed.

Lemma tickerToIndex_set_side t f os :
  tickerToIndex (set_side t f os) = tickerToIndex os.
Proof. destruct t; reflexivity. Qed.

Lemma set_sideArray_run t i l st :
  set_sideArray t i l st =
  (Return tt, set_orderStorage (set_side t (λ a : list (list ref), <[i := l]> a)) st).
Proof. destruct t; reflexivity. Qed.

Lemma sideArray_side t i l st :
  side t (orderStorage st) !! i = Some l → sideArray t i st = (Return l, st).
Proof. apply sideArray_run. Qed.

Lemma storage_addOrder_run st r o k :
  Inv st → heap st !! r = Some o →
  findTicker (tickerSymbol o) (tickerToIndex (orderStorage st)) = Some k →
  ∃ l l' st',
    OrderStorage.addOrder r st = (Return tt, st') ∧
    st' = set_orderStorage (set_side (type o) (λ a : list (list ref), <[k := l']> a)) st ∧
    side (type o) (orderStorage st) !! k = Some l ∧
    Permutation l' (l ++ [r]) ∧
    Inv st'.
Proof.
  intros HI Hr Hf.
  destruct (side_lookup st (type o) k HI (slot_in_range _ _ _ HI Hf)) as [l Hl].
  assert (Hk : k < length (side (type o) (orderStorage st))).
  { apply lookup_lt_Some in Hl. exact Hl. }
  assert (Hv : ∀ x, x ∈ l ++ [r] → is_Some (heap st !! x)).
  { intros x Hx. apply elem_of_app in Hx as [Hx|Hx].
    - eapply (book_refs_valid st (type o)); eassumption.
    - apply list_elem_of_singleton in Hx. subst x. eauto. }
  set (st1 := set_orderStorage
                (set_side (type o) (λ a : list (list ref), <[k := l ++ [r]]> a)) st).
  destruct (sortRefs_run (match type o with buy => cmpBuy | sell => cmpSell end)
              (l ++ [r]) st1 Hv) as (l' & Hsort & Hperm).
  exists l, l'. eexists. split; [|split; [reflexivity|]].
  - unfold OrderStorage.addOrder. mrun. rewrite (deref_Some _ _ _ Hr). mrun.
    rewrite (getTickerIndex_known _ _ _ Hf). mrun.
    assert (Hl1 : side (type o) (orderStorage st1) !! k = Some (l ++ [r])).
    { unfold st1. proj. rewrite side_set_side.
      apply list_lookup_insert_eq. exact Hk. }
    destruct (type o) eqn:Ht; mrun;
      rewrite (sideArray_side _ _ _ _ Hl); mrun;
      rewrite set_sideArray_run; mrun; fold st1;
      rewrite (sideArray_side _ _ _ _ Hl1); mrun;
      rewrite Hsort; mrun;
      rewrite set_sideArray_run; unfold st1; f_equal;
      unfold set_orderStorage, set_side, set_buyOrders, set_sellOrders; proj;
      rewrite list_insert_insert_eq; reflexivity.
  - split; [exact Hl|]. split; [exact Hperm|].
    eapply Inv_place; eauto.
Qed.

Lemma findTicker_registered s tbl k :
  findTicker s tbl = None → findTicker s (tbl ++ [mkEntry s k]) = Some k.
Proof.
  intros H. rewrite findTicker_app, H. simpl. rewrite String.eqb_refl. reflexivity.
Qed.

Lemma book_grows_place st st0 t k l l' r :
  buyOrders (orderStorage st0) = buyOrders (orderStorage st) →
  sellOrders (orderStorage st0) = sellOrders (orderStorage st) →
  side t (orderStorage st0) !! k = Some l →
  Permutation l' (l ++ [r]) →
  book_grows st
    (set_orderStorage (set_side t (λ a : list (list ref), <[k := l']> a)) st0) r.
Proof.
  intros Hb Hs Hl Hperm t' i l0 x Hl0 Hx.
  assert (Hk : k < length (side t (orderStorage st0))).
  { apply lookup_lt_Some in Hl. exact Hl. }
  assert (Hside : ∀ t0, side t0 (orderStorage st0) = side t0 (orderStorage st)).
  { intros []; assumption. }
  destruct (decide (t' = t ∧ i = k)) as [[-> ->]|Hne].
  - proj. rewrite side_set_side in Hl0.
    rewrite list_lookup_insert_eq in Hl0 by exact Hk. injection Hl0 as <-.
    rewrite Hperm in Hx. apply elem_of_app in Hx as [Hx|Hx].
    + right. exists l. rewrite <- Hside. auto.
    + left. apply list_elem_of_singleton in Hx. exact Hx.
  - right. exists l0. split; [|exact Hx]. rewrite <- Hside.
    destruct t, t'; proj; simpl in *; try exact Hl0;
      (rewrite list_lookup_insert_ne in Hl0; [exact Hl0|]);
      intros ->; apply Hne; auto.
Qed.

(** [createOrder] either places the new order in the book of its side, or
    fails because the registry is full; the order object exists either way. *)
Lemma createOrder_spec t sym qty prc st :
  Inv st →
  ∃ st',
    Inv st' ∧
    heap st' = (heap st ++ [newOrder st t sym qty prc]) ∧
    same_ledger_log st st' ∧
    orderCounter st' = S (orderCounter st) ∧
    (symbols st `prefix_of` symbols st') ∧
    ((createOrder t sym qty prc st = (Return (length (heap st)), st') ∧
      book_grows st st' (length (heap st)) ∧
      ∃ k l, findTicker sym (tickerToIndex (orderStorage st')) = Some k ∧
             side t (orderStorage st') !! k = Some l ∧ length (heap st) ∈ l) ∨
     (createOrder t sym qty prc st = (Throw MaxTickersReached, st') ∧
      orderStorage st' = orderStorage st ∧
      (sym ∉ symbols st) ∧ length (symbols st) = MAX_TICKERS)).
Proof.
  intros HI.
  set (o := newOrder st t sym qty prc).
  set (r := length (heap st)).
  set (stA := set_heap (λ h, h ++ [o])
                (set_ticks S (set_orderCounter S (set_ticks S st)))).
  assert (HIA : Inv stA).
  { eapply (Inv_extend st stA o); try reflexivity. exact HI. }
  assert (HrA : heap stA !! r = Some o).
  { unfold stA, r. proj. apply list_lookup_middle. reflexivity. }
  assert (Hrun : createOrder t sym qty prc st =
                 match OrderStorage.addOrder r stA with
                 | (Return _, st') => (Return r, st')
                 | (Throw e, st') => (Throw e, st')
                 end).
  { unfold createOrder, generateOrderId, Date_now, new_Order. mrun. reflexivity. }
  destruct (findTicker sym (tickerToIndex (orderStorage st))) as [k|] eqn:Hf.
  - (* the symbol is registered *)
    destruct (storage_addOrder_run stA r o k HIA HrA Hf)
      as (l & l' & st' & Hadd & Hst' & Hl & Hperm & HI').
    exists st'. split; [exact HI'|]. rewrite Hrun, Hadd. subst st'.
    split; [reflexivity|]. split; [repeat split|]. split; [reflexivity|].
    split.
    { unfold symbols. proj. rewrite tickerToIndex_set_side. reflexivity. }
    left. split; [reflexivity|]. split.
    { eapply (book_grows_place st stA (type o)); [reflexivity|reflexivity|exact Hl|exact Hperm]. }
    exists k, l'.
    split; [destruct t; exact Hf|]. split.
    + proj. change (type o) with t. rewrite side_set_side.
      apply list_lookup_insert_eq. apply lookup_lt_Some in Hl. exact Hl.
    + rewrite Hperm. apply elem_of_app. right. apply list_elem_of_singleton. reflexivity.
  - destruct (nextIndex (orderStorage st) <? MAX_TICKERS) eqn:Hfull.
    + (* the symbol takes the next slot *)
      apply Nat.ltb_lt in Hfull.
      set (k := nextIndex (orderStorage st)).
      set (stB := set_orderStorage (register (mkEntry sym k)) stA).
      assert (HIB : Inv stB) by (apply (Inv_register stA sym HIA Hf Hfull)).
      assert (HfB : findTicker sym (tickerToIndex (orderStorage stB)) = Some k).
      { unfold stB. proj. apply findTicker_registered. exact Hf. }
      assert (Heq : OrderStorage.addOrder r stA = OrderStorage.addOrder r stB).
      { unfold OrderStorage.addOrder. rewrite !bind_run.
        rewrite (deref_Some r o stA HrA), (deref_Some r o stB HrA).
        cbn beta iota. rewrite !bind_run. change (tickerSymbol o) with sym.
        rewrite (getTickerIndex_known _ _ _ HfB).
        rewrite getTickerIndex_run.
        change (orderStorage stA) with (orderStorage st). rewrite Hf.
        apply Nat.ltb_lt in Hfull. rewrite Hfull. reflexivity. }
      destruct (storage_addOrder_run stB r o k HIB HrA HfB)
        as (l & l' & st' & Hadd & Hst' & Hl & Hperm & HI').
      exists st'. split; [exact HI'|]. rewrite Hrun, Heq, Hadd. subst st'.
      split; [reflexivity|]. split; [repeat split|]. split; [reflexivity|].
      split.
      { unfold symbols. proj. rewrite tickerToIndex_set_side. unfold stB. proj.
        rewrite fmap_app. apply prefix_app_r. reflexivity. }
      left. split; [reflexivity|]. split.
      { eapply (book_grows_place st stB (type o)); [reflexivity|reflexivity|exact Hl|exact Hperm]. }
      exists k, l'.
      split; [destruct t; exact HfB|]. split.
      * proj. change (type o) with t. rewrite side_set_side.
        apply list_lookup_insert_eq. apply lookup_lt_Some in Hl. exact Hl.
      * rewrite Hperm. apply elem_of_app. right. apply list_elem_of_singleton.
        reflexivity.
    + (* the registry is full *)
      exists stA. split; [exact HIA|].
      split; [reflexivity|]. split; [repeat split|]. split; [reflexivity|].
      split; [reflexivity|]. right.
      assert (Hadd : OrderStorage.addOrder r stA = (Throw MaxTickersReached, stA)).
      { unfold OrderStorage.addOrder. rewrite bind_run, (deref_Some r o stA HrA).
        cbn beta iota. rewrite bind_run, getTickerIndex_run.
        change (tickerSymbol o) with sym.
        change (orderStorage stA) with (orderStorage st). rewrite Hf, Hfull.
        reflexivity. }
      rewrite Hrun, Hadd. split; [reflexivity|]. split; [reflexivity|].
      split; [apply findTicker_None; exact Hf|].
      apply Nat.ltb_ge in Hfull. destruct HI as [Hbl Hsl Hnx Hcap Hidx Hnd Hids Huniq Hbb Hsb].
      unfold symbols. rewrite length_fmap. lia.
Qed.

(** ** What matching and settling keep *)

Lemma matched_frame_refl st : matched_frame st st.
Proof.
  unfold matched_frame. repeat (split; [reflexivity|]).
  split; [apply heap_evolves_refl|reflexivity].
Qed.

Lemma matched_frame_trans st1 st2 st3 :
  matched_frame st1 st2 → matched_frame st2 st3 → matched_frame st1 st3.
Proof.
  intros (? & ? & ? & ? & ? & H12 & P12) (? & ? & ? & ? & ? & H23 & P23).
  unfold matched_frame. repeat (split; [congruence|]).
  split; [eapply heap_evolves_trans; eassumption|etrans; eassumption].
Qed.

Lemma matched_frame_back st st' r o' :
  matched_frame st st' → heap st' !! r = Some o' →
  ∃ o, heap st !! r = Some o ∧ static_eq o o'.
Proof.
  intros (_ & _ & _ & _ & Hlen & Hev & _). apply heap_evolves_back; assumption.
Qed.

Lemma matched_frame_same st st' :
  orderStorage st' = orderStorage st → orderCounter st' = orderCounter st →
  listeners st' = listeners st → clock st' = clock st → heap st' = heap st →
  transactions st `prefix_of` transactions st' →
  matched_frame st st'.
Proof.
  intros ? ? ? ? Hh ?. unfold matched_frame. repeat (split; [assumption|]).
  rewrite Hh. split; [reflexivity|]. split; [apply heap_evolves_refl|assumption].
Qed.

Lemma Inv_matched st st' : Inv st → matched_frame st st' → Inv st'.
Proof.
  intros HI (Hs & Hc & _ & _ & Hlen & Hev & _).
  eapply Inv_heap; eassumption.
Qed.

Lemma live_matched st st' r : live st r → matched_frame st st' → live st' r.
Proof.
  intros (o & k & Hr & Hf) (Hs & _ & _ & _ & _ & Hev & _).
  destruct (Hev r o Hr) as (o' & Hr' & (_ & _ & Hsym & _)).
  exists o', k. rewrite Hs, Hsym. auto.
Qed.

Lemma ready_matched rs st st' : ready rs st → matched_frame st st' → ready rs st'.
Proof.
  intros [HI Hl] Hfr. split; [eapply Inv_matched; eassumption|].
  intros r Hr. eapply live_matched; eauto.
Qed.

Lemma keeps_bind {A B} rs (m : M A) (k : A → M B) :
  keeps rs m → (∀ a, keeps rs (k a)) → keeps rs (m ≫= k).
Proof.
  intros Hm Hk st Hst. rewrite bind_run. specialize (Hm st Hst).
  destruct (m st) as [[a|e] st1]; simpl in *; [|exact Hm].
  eapply matched_frame_trans; [exact Hm|].
  apply Hk. eapply ready_matched; eassumption.
Qed.

Lemma keeps_mono {A} rs rs' (m : M A) :
  (∀ r, r ∈ rs → r ∈ rs') → keeps rs m → keeps rs' m.
Proof. intros Hsub Hm st [HI Hl]. apply Hm. split; auto. Qed.

Lemma keeps_ret {A} rs (a : A) : keeps rs (mret a : M A).
Proof. intros st _. apply matched_frame_refl. Qed.

Lemma keeps_deref rs r : keeps rs (deref r).
Proof.
  intros st _. unfold deref. destruct (heap st !! r); apply matched_frame_refl.
Qed.

Lemma keeps_Date_now rs : keeps rs Date_now.
Proof. intros st _. apply matched_frame_same; reflexivity. Qed.

Lemma keeps_generateTransactionId rs : keeps rs generateTransactionId.
Proof. intros st _. apply matched_frame_same; reflexivity. Qed.

Lemma keeps_log rs tx : keeps rs (modify (set_transactions (λ l, l ++ [tx]))).
Proof.
  intros st _. apply matched_frame_same; try reflexivity.
  proj. apply prefix_app_r. reflexivity.
Qed.

Lemma keeps_notifyListeners rs txs : keeps rs (notifyListeners txs).
Proof. intros st _. apply matched_frame_same; reflexivity. Qed.

Lemma keeps_updatePortfolio rs tx : keeps rs (updatePortfolio tx).
Proof.
  intros st [HI _]. destruct (updatePortfolio_run tx st HI) as (out & ps & op & bs & -> & _).
  apply matched_frame_same; reflexivity.
Qed.

Lemma keeps_mutate rs r f : (∀ o, static_eq o (f o)) → keeps rs (mutate r f).
Proof.
  intros Hf st _. unfold mutate. destruct (heap st !! r) as [o|] eqn:Hr;
    [|apply matched_frame_refl].
  unfold matched_frame. proj. repeat (split; [reflexivity|]).
  split; [apply length_insert|].
  split; [eapply heap_evolves_insert; [exact Hr|apply Hf]|reflexivity].
Qed.

Lemma static_write_remainingQuantity q o : static_eq o (write_remainingQuantity q o).
Proof. repeat split. Qed.

Lemma static_write_status s o : static_eq o (write_status s o).
Proof. repeat split. Qed.

Lemma keeps_updateOrder rs r : r ∈ rs → keeps rs (updateOrder r).
Proof.
  intros Hin st [HI Hl]. destruct (Hl r Hin) as (o & k & Hr & Hf).
  rewrite (updateOrder_id st r o k HI Hr Hf). apply matched_frame_refl.
Qed.

Ltac keeps_step :=
  first
    [ apply keeps_ret
    | apply keeps_deref
    | apply keeps_Date_now
    | apply keeps_generateTransactionId
    | apply keeps_log
    | apply keeps_notifyListeners
    | apply keeps_updatePortfolio
    | apply keeps_mutate; first [apply static_write_remainingQuantity|apply static_write_status]
    | apply keeps_updateOrder; first [assumption|left]
    | apply keeps_bind; [|intros ?]
    | match goal with
      | |- keeps _ (if ?b then _ else _) => case b
      | |- keeps _ (let '(_, _) := ?p in _) => destruct p
      end
    | progress cbv zeta ].

Lemma keeps_cross rs r c : r ∈ rs → c ∈ rs → keeps rs (cross r c).
Proof. intros Hr Hc. unfold cross. repeat keeps_step. Qed.

Lemma keeps_matchLoop r todo : ∀ acc, keeps (r :: todo) (matchLoop r todo acc).
Proof.
  induction todo as [|c rest IH]; intros acc; cbn [matchLoop]; [apply keeps_ret|].
  assert (Hrest : ∀ acc', keeps (r :: c :: rest) (matchLoop r rest acc')).
  { intros acc'. eapply keeps_mono; [|apply IH].
    intros x Hx. apply elem_of_cons in Hx as [->|Hx]; [left|right; right; exact Hx]. }
  apply keeps_bind; [apply keeps_deref|]. intros oc.
  destruct (_ || _); [apply Hrest|].
  apply keeps_bind; [apply keeps_deref|]. intros o.
  destruct (negb _); [apply Hrest|].
  apply keeps_bind; [apply keeps_cross; [left|right; left]|]. intros [tx filled].
  destruct filled; [apply keeps_ret|apply Hrest].
Qed.

Lemma opposite_orders_run st o k :
  Inv st → findTicker (tickerSymbol o) (tickerToIndex (orderStorage st)) = Some k →
  ∃ l, side (opposite (type o)) (orderStorage st) !! k = Some l ∧
       (match type o with
        | sell => OrderStorage.getBuyOrders (tickerSymbol o)
        | buy => OrderStorage.getSellOrders (tickerSymbol o)
        end) st = (Return l, st).
Proof.
  intros HI Hf. destruct (type o); simpl.
  - exact (getSellOrders_known st _ k HI Hf).
  - exact (getBuyOrders_known st _ k HI Hf).
Qed.

Lemma book_entry st t k l c :
  Inv st → side t (orderStorage st) !! k = Some l → c ∈ l →
  ∃ oc, heap st !! c = Some oc ∧ type oc = t ∧
        findTicker (tickerSymbol oc) (tickerToIndex (orderStorage st)) = Some k.
Proof.
  intros HI Hl Hc. destruct t; simpl in Hl.
  - exact (inv_buy_book st HI k l c Hl Hc).
  - exact (inv_sell_book st HI k l c Hl Hc).
Qed.

Lemma keeps_matchOrder r : keeps [r] (matchOrder r).
Proof.
  intros st [HI Hl]. destruct (Hl r) as (o & k & Hr & Hf); [left|].
  destruct (opposite_orders_run st o k HI Hf) as (l & Hlk & Hget).
  unfold matchOrder. rewrite bind_run, (deref_Some _ _ _ Hr). cbn beta iota.
  rewrite bind_run, Hget. cbn beta iota.
  destruct (length l =? 0); [apply matched_frame_refl|].
  assert (Hready : ready (r :: l) st).
  { split; [exact HI|]. intros x Hx. apply elem_of_cons in Hx as [->|Hx].
    - exists o, k. auto.
    - destruct (book_entry st _ k l x HI Hlk Hx) as (oc & Hoc & _ & Hfc).
      exists oc, k. auto. }
  refine (keeps_bind (r :: l) _ _ _ _ st Hready); [apply keeps_matchLoop|].
  intros [txs filled]. repeat keeps_step.
Qed.

Lemma keeps_settle rs t r txs : r ∈ rs → keeps rs (settle t r txs).
Proof. intros Hr. unfold settle, fillWith. repeat keeps_step. Qed.

(** ** What the calls return *)

Lemma yields_bind {A B} (Q : B → Prop) (m : M A) (k : A → M B) :
  (∀ a, yields Q (k a)) → yields Q (m ≫= k).
Proof.
  intros Hk st b st'. rewrite bind_run.
  destruct (m st) as [[a|e] st1]; [apply Hk|discriminate].
Qed.

Lemma yields_ret {A} (Q : A → Prop) (a : A) : Q a → yields Q (mret a : M A).
Proof. intros HQ st b st' [= <- _]. exact HQ. Qed.

Lemma generateTransactionId_run st :
  generateTransactionId st =
  (Return ("tx-" +:+ pretty (clock st (ticks st)) +:+ "-" +:+ pretty (transactionCounter st)),
   set_transactionCounter S (set_ticks S st)).
Proof. reflexivity. Qed.

Lemma Date_now_run st : Date_now st = (Return (clock st (ticks st)), set_ticks S st).
Proof. reflexivity. Qed.

(** The transaction of a crossing is made before the ledger is touched. *)
Lemma cross_tx st r c o oc tx f st' :
  heap st !! r = Some o → heap st !! c = Some oc →
  cross r c st = (Return (tx, f), st') → tx = crossing st o oc.
Proof.
  intros Hr Hc. unfold cross.
  rewrite bind_run, (deref_Some _ _ _ Hr). cbn beta iota.
  rewrite bind_run, (deref_Some _ _ _ Hc). cbn beta iota. cbv zeta.
  rewrite bind_run, generateTransactionId_run. cbn beta iota.
  rewrite bind_run, Date_now_run. cbn beta iota.
  refine (@yields_bind _ _ (λ p, p.1 = crossing st o oc) _ _ _ _ (tx, f) st').
  intros _. repeat (apply yields_bind; intros ?). apply yields_ret. reflexivity.
Qed.

(** ** The matching loop *)

Lemma crossing_of_static o o' c c' tx :
  static_eq o o' → static_eq c c' → crossing_of o' c' tx → crossing_of o c tx.
Proof.
  intros (Hio & Hto & Hso & _ & Hpo & Hts) (Hic & Htc & Hsc & _ & Hpc & Htsc).
  unfold crossing_of, transactionPrice.
  rewrite Hio, Hto, Hso, Hpo, Hts, Hic, Hpc, Htsc. auto.
Qed.

Lemma crossing_of_crossing st o oc : crossing_of o oc (crossing st o oc).
Proof. repeat split. Qed.

(** When the loop returns, the transactions it adds are crossings of the
    incoming order with entries of the list it walked; when it adds none, it
    has changed nothing. *)
Lemma matchLoop_spec r todo : ∀ st acc o res filled st',
  ready (r :: todo) st → heap st !! r = Some o →
  (∀ c oc, c ∈ todo → heap st !! c = Some oc → type oc ≠ type o) →
  matchLoop r todo acc st = (Return (res, filled), st') →
  ∃ txs, res = acc ++ txs ∧ (txs = [] → st' = st) ∧
    (∀ tx, tx ∈ txs → ∃ c oc, c ∈ todo ∧ heap st !! c = Some oc ∧ crossing_of o oc tx).
Proof.
  induction todo as [|c rest IH]; intros st acc o res filled st' Hready Hr Hty.
  - intros [= <- _ <-]. exists []. rewrite app_nil_r. split; [reflexivity|].
    split; [reflexivity|]. intros tx Htx. apply elem_of_nil in Htx. contradiction.
  - assert (Hready' : ready (r :: rest) st).
    { destruct Hready as [HI Hl]. split; [exact HI|]. intros x Hx. apply Hl.
      apply elem_of_cons in Hx as [->|Hx]; [left|right; right; exact Hx]. }
    assert (Hskip : matchLoop r rest acc st = (Return (res, filled), st') →
      ∃ txs, res = acc ++ txs ∧ (txs = [] → st' = st) ∧
        (∀ tx, tx ∈ txs → ∃ c0 oc, c0 ∈ c :: rest ∧ heap st !! c0 = Some oc ∧
                                   crossing_of o oc tx)).
    { intros Hrun.
      destruct (IH st acc o res filled st' Hready' Hr) as (txs & Hres & Hnil & Htx);
        [intros c0 oc0 Hc0; apply Hty; right; exact Hc0|exact Hrun|].
      exists txs. split; [exact Hres|]. split; [exact Hnil|].
      intros tx Hin. destruct (Htx tx Hin) as (c0 & oc0 & Hc0 & Hoc0 & Hcr).
      exists c0, oc0. split; [right; exact Hc0|auto]. }
    destruct Hready as [HI Hl].
    destruct (Hl c) as (oc & k & Hc & Hf); [right; left|].
    cbn [matchLoop]. rewrite bind_run, (deref_Some _ _ _ Hc). cbn beta iota.
    destruct (_ || _); [exact Hskip|].
    rewrite bind_run, (deref_Some _ _ _ Hr). cbn beta iota.
    destruct (negb _); [exact Hskip|].
    rewrite bind_run.
    assert (Hfr := keeps_cross (r :: c :: rest) r c ltac:(left) ltac:(right; left) st
                     (conj HI Hl)).
    destruct (cross r c st) as [[[tx f]|e] st1] eqn:Hcross; [|discriminate].
    simpl in Hfr. cbn beta iota.
    assert (Htx := cross_tx st r c o oc tx f st1 Hr Hc Hcross). subst tx.
    destruct f.
    + intros [= <- _ <-]. exists [crossing st o oc]. split; [reflexivity|].
      split; [discriminate|].
      intros tx' Hin. apply list_elem_of_singleton in Hin. subst tx'.
      exists c, oc. split; [left|]. split; [exact Hc|apply crossing_of_crossing].
    + intros Hrun.
      destruct (proj1 (proj2 (proj2 (proj2 (proj2 (proj2 Hfr))))) r o Hr)
        as (o1 & Hr1 & Hst1).
      destruct (IH st1 (acc ++ [crossing st o oc]) o1 res filled st') as (txs & Hres & _ & Htx).
      * eapply ready_matched; [exact Hready'|exact Hfr].
      * exact Hr1.
      * intros c0 oc1 Hc0 Hoc1.
        destruct (matched_frame_back st st1 c0 oc1 Hfr Hoc1) as (oc0 & Hoc0 & Hs0).
        destruct Hs0 as (_ & Ht0 & _). destruct Hst1 as (_ & Ht1 & _).
        rewrite Ht0, Ht1. apply (Hty c0 oc0); [right; exact Hc0|exact Hoc0].
      * exact Hrun.
      * exists (crossing st o oc :: txs).
        split; [rewrite Hres, <- app_assoc; reflexivity|]. split; [discriminate|].
        intros tx' Hin. apply elem_of_cons in Hin as [->|Hin].
        -- exists c, oc. split; [left|]. split; [exact Hc|apply crossing_of_crossing].
        -- destruct (Htx tx' Hin) as (c0 & oc1 & Hc0 & Hoc1 & Hcr).
           destruct (matched_frame_back st st1 c0 oc1 Hfr Hoc1) as (oc0 & Hoc0 & Hs0).
           exists c0, oc0. split; [right; exact Hc0|]. split; [exact Hoc0|].
           eapply crossing_of_static; [exact Hst1|exact Hs0|exact Hcr].
Qed.

Lemma matchOrder_spec st r o k txs st' :
  Inv st → heap st !! r = Some o →
  findTicker (tickerSymbol o) (tickerToIndex (orderStorage st)) = Some k →
  matchOrder r st = (Return txs, st') →
  ∃ l, side (opposite (type o)) (orderStorage st) !! k = Some l ∧
       (txs = [] → st' = st) ∧
       (∀ tx, tx ∈ txs → ∃ c oc, c ∈ l ∧ heap st !! c = Some oc ∧ crossing_of o oc tx).
Proof.
  intros HI Hr Hf H.
  destruct (opposite_orders_run st o k HI Hf) as (l & Hl & Hget).
  exists l. split; [exact Hl|].
  revert H. unfold matchOrder. rewrite bind_run, (deref_Some _ _ _ Hr). cbn beta iota.
  rewrite bind_run, Hget. cbn beta iota.
  destruct (length l =? 0).
  { intros [= <- <-]. split; [reflexivity|].
    intros tx Htx. apply elem_of_nil in Htx. contradiction. }
  assert (Hready : ready (r :: l) st).
  { split; [exact HI|]. intros x Hx. apply elem_of_cons in Hx as [->|Hx].
    - exists o, k. auto.
    - destruct (book_entry st _ k l x HI Hl Hx) as (oc & Hoc & _ & Hfc).
      exists oc, k. auto. }
  rewrite bind_run.
  assert (Hfr := keeps_matchLoop r l [] st Hready).
  destruct (matchLoop r l [] st) as [[[res filled]|e] st1] eqn:Hloop; [|discriminate].
  simpl in Hfr. cbn beta iota.
  destruct (matchLoop_spec r l st [] o res filled st1 Hready Hr) as (txs0 & Hres & Hnil & Htx).
  { intros c oc Hc Hoc. destruct (book_entry st _ k l c HI Hl Hc) as (oc' & Hoc' & Hty & _).
    replace oc' with oc in Hty by congruence. rewrite Hty. destruct (type o); discriminate. }
  { exact Hloop. }
  simpl in Hres. subst txs0.
  destruct (proj1 (proj2 (proj2 (proj2 (proj2 (proj2 Hfr))))) r o Hr) as (o1 & Hr1 & Hst1).
  rewrite bind_run, (deref_Some _ _ _ Hr1). cbn beta iota.
  assert (Hup : OrderStorage.updateOrder r st1 = (Return tt, st1)).
  { eapply (updateOrder_id st1 r o1 k); [eapply Inv_matched; eassumption|exact Hr1|].
    destruct Hfr as (Hs & _). destruct Hst1 as (_ & _ & Hsym & _).
    rewrite Hs, Hsym. exact Hf. }
  assert (Hrest : ∀ b : bool,
    ((if b then OrderStorage.updateOrder r else mret tt);; mret res) st1 =
    (Return res, st1)).
  { intros []; rewrite bind_run; rewrite ?Hup; reflexivity. }
  rewrite Hrest. intros [= <- <-]. split; [|exact Htx].
  intros Hn. apply Hnil. exact Hn.
Qed.

(** ** Settling an order *)

(** The identifiers of orders are not sentinels. *)
Lemma orderIdOf_not_AUTO t c : String.eqb (orderIdOf t c) AUTO = false.
Proof. reflexivity. Qed.

(** An order that met no counterparty: if the ledger update goes through,
    the order is marked as filled and everything else in the book and the
    object store is as before; otherwise the call ends in a [TypeError]. *)
Lemma settle_fill st t r o k out stF :
  Inv st → heap st !! r = Some o → type o = t →
  findTicker (tickerSymbol o) (tickerToIndex (orderStorage st)) = Some k →
  settle t r [] st = (out, stF) →
  out = (updatePortfolio (synthetic st o)
           (set_ticks S (set_transactionCounter S (set_ticks S st)))).1 ∧
  ((out = Return tt ∧ orderStorage stF = orderStorage st ∧
    heap stF = <[r := settled o]> (heap st) ∧
    transactions stF = transactions st ++ [synthetic st o] ∧
    orderCounter stF = orderCounter st) ∨
   (out = Throw TypeError ∧ orderStorage stF = orderStorage st ∧ heap stF = heap st ∧
    transactions stF = transactions st)).
Proof.
  intros HI Hr Ht Hf.
  assert (Hlr : r < length (heap st)) by (eapply lookup_lt_Some; eassumption).
  set (st2 := set_ticks S (set_transactionCounter S (set_ticks S st))).
  set (tx := synthetic st o).
  assert (HI2 : Inv st2) by (eapply Inv_frame; [| | |exact HI]; reflexivity).
  assert (Hfill : fillWith r tx st2 = (out, stF) →
    out = (updatePortfolio tx st2).1 ∧
    ((out = Return tt ∧ orderStorage stF = orderStorage st ∧
      heap stF = <[r := settled o]> (heap st) ∧
      transactions stF = transactions st ++ [tx] ∧
      orderCounter stF = orderCounter st) ∨
     (out = Throw TypeError ∧ orderStorage stF = orderStorage st ∧ heap stF = heap st ∧
      transactions stF = transactions st))).
  { unfold fillWith. rewrite bind_run.
    destruct (updatePortfolio_run tx st2 HI2) as (out1 & ps & op & bs & -> & [-> | ->]).
    2:{ intros [= <- <-]. split; [reflexivity|]. right. repeat split. }
    cbn beta iota. unfold notifyListeners. mrun. proj.
    set (st5 := set_delivered _ _).
    assert (Hr5 : heap st5 !! r = Some o) by exact Hr.
    rewrite (mutate_run r _ o st5 Hr5). mrun.
    set (st6 := set_heap _ st5).
    assert (Hr6 : heap st6 !! r = Some (write_status matched o)).
    { unfold st6. proj. apply list_lookup_insert_eq. exact Hlr. }
    rewrite (mutate_run r _ _ st6 Hr6). mrun.
    set (st7 := set_heap _ st6).
    assert (Hh7 : heap st7 = <[r := settled o]> (heap st)).
    { unfold st7, st6. proj. rewrite list_insert_insert_eq. reflexivity. }
    assert (HI7 : Inv st7).
    { eapply (Inv_heap st); [reflexivity|reflexivity| | |exact HI].
      - rewrite Hh7. apply length_insert.
      - rewrite Hh7. eapply heap_evolves_insert; [exact Hr|repeat split]. }
    assert (Hup : OrderStorage.updateOrder r st7 = (Return tt, st7)).
    { eapply (updateOrder_id _ r (settled o) k); [exact HI7| |exact Hf].
      rewrite Hh7. apply list_lookup_insert_eq. exact Hlr. }
    rewrite Hup. intros [= <- <-]. split; [reflexivity|]. left. split; [reflexivity|].
    split; [reflexivity|]. split; [exact Hh7|]. split; reflexivity. }
  subst tx. unfold synthetic in Hfill |- *. revert Hfill.
  unfold settle. subst t.
  destruct (type o) eqn:Hty; intros Hfill;
    rewrite ?(bool_decide_eq_false_2 (sell = buy)) by discriminate;
    rewrite ?(bool_decide_eq_true_2 (buy = buy)) by reflexivity;
    rewrite ?(bool_decide_eq_true_2 (sell = sell)) by reflexivity;
    cbn [length Nat.eqb andb];
    rewrite bind_run, generateTransactionId_run; cbn beta iota;
    (rewrite bind_run, (deref_Some r o) by exact Hr); cbn beta iota;
    rewrite bind_run, Date_now_run; cbn beta iota zeta; proj; fold st2;
    exact Hfill.
Qed.

Lemma settle_notify st t r txs :
  txs ≠ [] →
  settle t r txs st =
  (Return tt, set_delivered (λ d, d ++ ((λ l, (l, txs)) <$> listeners st)) st).
Proof.
  intros Hne. unfold settle. destruct txs as [|tx txs]; [contradiction|].
  cbn [length Nat.eqb andb Nat.ltb Nat.leb]. rewrite !andb_false_r. reflexivity.
Qed.

(** ** Every call keeps the invariant *)

Lemma Inv_init clk : Inv (init clk).
Proof.
  constructor; unfold init, symbols;
    cbn [orderStorage heap orderCounter buyOrders sellOrders tickerToIndex nextIndex].
  - apply length_replicate.
  - apply length_replicate.
  - reflexivity.
  - apply Nat.le_0_l.
  - intros i e H. rewrite lookup_nil in H. discriminate.
  - apply NoDup_nil_2.
  - intros r o H. rewrite lookup_nil in H. discriminate.
  - intros r1 r2 o1 o2 H. rewrite lookup_nil in H. discriminate.
  - intros i l r Hl Hr. apply lookup_replicate in Hl as [-> _].
    apply elem_of_nil in Hr. contradiction.
  - intros i l r Hl Hr. apply lookup_replicate in Hl as [-> _].
    apply elem_of_nil in Hr. contradiction.
Qed.

(** The effect of a book query on the state is that of the registry lookup. *)
Lemma query_spec s st :
  Inv st →
  let st' := (tryTickerIndex s st).2 in
  (OrderStorage.getBuyOrders s st).2 = st' ∧
  (OrderStorage.getSellOrders s st).2 = st' ∧
  Inv st' ∧ heap st' = heap st ∧ (symbols st `prefix_of` symbols st').
Proof.
  intros HI st'.
  assert (Hb : (OrderStorage.getBuyOrders s st).2 = st').
  { unfold OrderStorage.getBuyOrders, st'. rewrite bind_run.
    destruct (tryTickerIndex s st) as [[[i|]|e] st1]; simpl; try reflexivity.
    unfold sideArray. mrun. destruct (_ !! i); reflexivity. }
  assert (Hs : (OrderStorage.getSellOrders s st).2 = st').
  { unfold OrderStorage.getSellOrders, st'. rewrite bind_run.
    destruct (tryTickerIndex s st) as [[[i|]|e] st1]; simpl; try reflexivity.
    unfold sideArray. mrun. destruct (_ !! i); reflexivity. }
  split; [exact Hb|]. split; [exact Hs|].
  unfold st'. rewrite tryTickerIndex_run.
  destruct (findTicker s _) eqn:Hf; simpl.
  - split; [exact HI|]. split; reflexivity.
  - destruct (_ <? _) eqn:Hlt; simpl.
    + apply Nat.ltb_lt in Hlt. split; [apply Inv_register; assumption|].
      split; [reflexivity|]. unfold symbols. proj. rewrite fmap_app.
      apply prefix_app_r. reflexivity.
    + split; [exact HI|]. split; reflexivity.
Qed.

(** A submission that passed the validation, whatever its outcome. *)
Lemma addOrder_frame t sym qty prc st :
  Inv st →
  let stF := (addOrder t sym qty prc st).2 in
  Inv stF ∧ heap_evolves (heap st) (heap stF) ∧ (symbols st `prefix_of` symbols stF).
Proof.
  intros HI. unfold addOrder. rewrite bind_run.
  assert (Hst := validate_state t sym qty prc st).
  destruct (validate t sym qty prc st) as [[[]|e] st0]; simpl in Hst; subst st0.
  2:{ simpl. split; [exact HI|]. split; [apply heap_evolves_refl|reflexivity]. }
  cbn beta iota. rewrite bind_run.
  destruct (createOrder_spec t sym qty prc st HI)
    as (stC & HIC & HhC & _ & _ & Hpre & Hcases).
  assert (HevC : heap_evolves (heap st) (heap stC)).
  { rewrite HhC. apply heap_evolves_app. }
  destruct Hcases as [(Hcreate & _ & k & l & Hf & Hl & Hrl)|(Hcreate & _)];
    rewrite Hcreate; cbn beta iota.
  2:{ simpl. auto. }
  set (r := length (heap st)) in *.
  assert (Hready : ready [r] stC).
  { split; [exact HIC|]. intros x Hx. apply list_elem_of_singleton in Hx. subst x.
    exists (newOrder st t sym qty prc), k. split; [|exact Hf].
    rewrite HhC. apply list_lookup_middle. reflexivity. }
  assert (Hk : keeps [r] (newTransactions ← matchOrder r;
                          settle t r newTransactions;; mret r)).
  { apply keeps_bind; [apply keeps_matchOrder|]. intros txs.
    apply keeps_bind; [apply keeps_settle; left|]. intros _. apply keeps_ret. }
  specialize (Hk stC Hready).
  split; [eapply Inv_matched; eassumption|].
  destruct Hk as (Hs & _ & _ & _ & _ & Hev & _).
  split; [eapply heap_evolves_trans; eassumption|].
  unfold symbols. rewrite Hs. exact Hpre.
Qed.

(** What every call of the interface preserves. *)
Lemma after_spec c st :
  Inv st →
  Inv (after c st) ∧ heap_evolves (heap st) (heap (after c st)) ∧
  (symbols st `prefix_of` symbols (after c st)).
Proof.
  intros HI. destruct c as [t sym qty prc|sym|sym|id| | |n| |l|l]; simpl.
  - apply addOrder_frame. exact HI.
  - destruct (query_spec sym st HI) as (Hb & _ & HI' & Hh & Hpre).
    unfold getBuyOrders. rewrite Hb. rewrite Hh.
    split; [exact HI'|]. split; [apply heap_evolves_refl|exact Hpre].
  - destruct (query_spec sym st HI) as (_ & Hs & HI' & Hh & Hpre).
    unfold getSellOrders. rewrite Hs. rewrite Hh.
    split; [exact HI'|]. split; [apply heap_evolves_refl|exact Hpre].
  - destruct (findOrderById_run id st HI) as [x Hx]. rewrite Hx. simpl.
    split; [exact HI|]. split; [apply heap_evolves_refl|reflexivity].
  - split; [exact HI|]. split; [apply heap_evolves_refl|reflexivity].
  - split; [exact HI|]. split; [apply heap_evolves_refl|reflexivity].
  - split; [exact HI|]. split; [apply heap_evolves_refl|reflexivity].
  - split; [exact HI|]. split; [apply heap_evolves_refl|reflexivity].
  - split; [eapply Inv_frame; [| | |exact HI]; reflexivity|].
    split; [apply heap_evolves_refl|reflexivity].
  - split; [eapply Inv_frame; [| | |exact HI]; reflexivity|].
    split; [apply heap_evolves_refl|reflexivity].
Qed.

Lemma reachable_Inv st : reachable st → Inv st.
Proof.
  induction 1 as [clk|c st _ IH]; [apply Inv_init|].
  apply after_spec. exact IH.
Qed.

(** ** The ledger update for an ordinary symbol *)

(** What the ledger holds under a name that is not the name of a field of a
    position. *)
Lemma lookupPosition_ordinary key st :
  fieldOfKey key = None →
  lookupPosition key st =
  (Return (match portfolioPositions st !! key with
           | Some _ => Own
           | None => if String.eqb key "__proto__" then InheritedPrototype
                     else if bool_decide (key ∈ prototypeFunctions) then InheritedFunction
                     else Undefined
           end), st).
Proof. intros Hk. unfold lookupPosition, gets. rewrite Hk. reflexivity. Qed.

Ltac ledger_run Hk :=
  repeat first
    [ rewrite (lookupPosition_ordinary _ _ Hk)
    | rewrite lookup_alter_eq
    | rewrite lookup_insert_eq
    | rewrite lookup_delete_eq
    | match goal with H : _ !! _ = _ |- _ => rewrite H end
    | match goal with H : String.eqb _ _ = _ |- _ => rewrite H end
    | match goal with H : bool_decide _ = _ |- _ => rewrite H end
    | progress mrun
    | progress proj
    | progress cbn [fmap option_fmap option_map truthyLooked negb default from_option
                    getField setField x_shares x_averageBuyPrice x_currentValue id] ].

(** With a position of its own for the symbol, the update returns. *)
Lemma updatePortfolio_own tx st p :
  Inv st → fieldOfKey (tx_tickerSymbol tx) = None →
  portfolioPositions st !! tx_tickerSymbol tx = Some p →
  (updatePortfolio tx st).1 = Return tt.
Proof.
  intros HI Hk Hp. destruct (isBuyTransaction_run tx st HI) as [b Hb].
  unfold updatePortfolio. cbv zeta.
  set (sym := tx_tickerSymbol tx) in *.
  ledger_run Hk. rewrite Hb. cbn beta iota.
  destruct b; unfold readProp, writeProp; ledger_run Hk.
  - reflexivity.
  - destruct (_ <=? _)%float; ledger_run Hk; [|reflexivity].
    destruct (String.eqb sym "__proto__"); [reflexivity|].
    destruct (bool_decide _); reflexivity.
Qed.

(** For a symbol that is not the name of a field of a position, the ledger
    update returns. *)
Lemma updatePortfolio_returns tx st :
  Inv st → fieldOfKey (tx_tickerSymbol tx) = None →
  (updatePortfolio tx st).1 = Return tt.
Proof.
  intros HI Hk.
  destruct (portfolioPositions st !! tx_tickerSymbol tx) as [p|] eqn:Hp.
  { eapply updatePortfolio_own; eassumption. }
  destruct (isBuyTransaction_run tx st HI) as [b Hb].
  set (sym := tx_tickerSymbol tx) in *.
  destruct (String.eqb sym "__proto__") eqn:Hproto;
    [|destruct (bool_decide (sym ∈ prototypeFunctions)) eqn:Hfun].
  - unfold updatePortfolio. cbv zeta. fold sym. ledger_run Hk.
    rewrite Hb. cbn beta iota.
    destruct b; unfold readProp, writeProp; ledger_run Hk; [reflexivity|].
    destruct (_ <=? _)%float; ledger_run Hk; reflexivity.
  - unfold updatePortfolio. cbv zeta. fold sym. ledger_run Hk.
    rewrite Hb. cbn beta iota.
    destruct b; unfold readProp, writeProp; ledger_run Hk.
    + destruct (x_shares (default noExpando (builtins st !! sym))); ledger_run Hk;
        destruct (x_averageBuyPrice (default noExpando (builtins st !! sym)));
        ledger_run Hk; reflexivity.
    + destruct (x_shares (default noExpando (builtins st !! sym))); ledger_run Hk;
        destruct (_ <=? _)%float; ledger_run Hk; reflexivity.
  - assert (Hsame : updatePortfolio tx st =
              updatePortfolio tx
                (set_portfolioPositions
                   (<[sym := mkPosition sym 0 0 (tx_price tx)]>) st)).
    { unfold updatePortfolio. cbv zeta. fold sym.
      rewrite !bind_run, !(lookupPosition_ordinary sym _ Hk). proj.
      rewrite Hp, Hproto, Hfun, lookup_insert_eq. cbn beta iota.
      cbn [truthyLooked negb]. mrun. reflexivity. }
    rewrite Hsame.
    eapply (updatePortfolio_own tx _ (mkPosition sym 0 0 (tx_price tx)));
      [eapply Inv_frame; [| | |exact HI]; reflexivity|exact Hk|].
    proj. apply lookup_insert_eq.
Qed.

(** ** Rejections *)

(** [trim] on examples: it removes the white space of ECMAScript at both
    ends and nothing else; the string of U+00A0, U+3000, U+2028 and U+FEFF
    (here by the bytes of its encoding) is blank. *)
Example trim_examples :
  let bytes := foldr (λ b s, String (ascii_of_nat b) s) "" in
  trim "  AAPL " = "AAPL" ∧
  trim (bytes [9; 10] +:+ "A B" +:+ bytes [13; 11; 12]) = "A B" ∧
  trim " é " = "é" ∧
  trim "" = "" ∧
  trim (bytes [194; 160; 227; 128; 128; 226; 128; 168; 239; 187; 191]) = "" ∧
  trim (bytes [226; 128; 139]) = bytes [226; 128; 139].
Proof. vm_compute. repeat split. Qed.

(** A submission that fails the validation is rejected with the state as it
    was. *)
Lemma addOrder_rejected t sym qty prc st e :
  (validate t sym qty prc st).1 = Throw e →
  addOrder t sym qty prc st = (Throw e, st).
Proof.
  intros Hv. unfold addOrder. rewrite bind_run.
  assert (Hst := validate_state t sym qty prc st).
  destruct (validate t sym qty prc st) as [out st']. simpl in *. subst. reflexivity.
Qed.

(** The parameter errors are thrown exactly for a quantity or a price that
    is [<= 0] and for a blank symbol. *)
Lemma validate_parameters t sym qty prc st :
  (qty <=? 0)%float || (prc <=? 0)%float || String.eqb (trim sym) "" = true ↔
  ∃ e, InvalidOrderParameters e ∧ (validate t sym qty prc st).1 = Throw e.
Proof.
  unfold validate, InvalidOrderParameters.
  destruct (qty <=? 0)%float; [split; eauto|].
  destruct (prc <=? 0)%float; [split; eauto 6|].
  destruct (String.eqb (trim sym) ""); [split; eauto 6|].
  cbn [orb]. split; [discriminate|]. intros (e & He & Hv). exfalso.
  destruct t; [discriminate|]. revert Hv. unfold lookupPosition. mrun.
  set (x := match portfolioPositions st !! sym with Some _ => Own | None => _ end).
  assert (Hread : ∀ e', (readProp sym Shares x st).1 = Throw e' → e' = TypeError).
  { intros e'. destruct x; unfold readProp; mrun; try discriminate.
    - destruct (portfolioPositions st !! sym); [discriminate|]. intros [= <-]. reflexivity.
    - destruct (getField Shares _); discriminate.
    - intros [= <-]. reflexivity. }
  destruct x; mrun;
    try (intros [= <-]; destruct He as [He|[He|He]]; discriminate);
    (destruct (readProp sym Shares _ st) as [[held|e'] st'];
     [destruct (_ || _)|specialize (Hread e' eq_refl); subst e']);
    intros [= <-]; destruct He as [He|[He|He]]; discriminate.
Qed.

(** * The claims *)

Lemma empty_slot st l :
  Inv st →
  (buyOrders (orderStorage st) !! nextIndex (orderStorage st) = Some l ∨
   sellOrders (orderStorage st) !! nextIndex (orderStorage st) = Some l) →
  l = [].
Proof.
  intros HI Hl. destruct l as [|r l]; [reflexivity|exfalso].
  assert (∃ o, findTicker (tickerSymbol o) (tickerToIndex (orderStorage st)) =
               Some (nextIndex (orderStorage st))) as [o Hf].
  { destruct Hl as [Hl|Hl].
    - destruct (inv_buy_book st HI _ _ r Hl) as (o & _ & _ & Hf); [left|eauto].
    - destruct (inv_sell_book st HI _ _ r Hl) as (o & _ & _ & Hf); [left|eauto]. }
  destruct (findTicker_Some_elem _ _ _ Hf) as (i & e & Hi & _ & Hk).
  rewrite (inv_index st HI _ _ Hi) in Hk. apply lookup_lt_Some in Hi.
  rewrite (inv_next st HI) in Hk. lia.
Qed.

(** C9. The registry accepts 1024 distinct symbols.  In every reachable
    state: [symbols()] lists the registered symbols without repetition, at
    most 1024 of them; a registered symbol resolves to its position in that
    list (its slot) and leaves the state alone; a new symbol takes the next
    slot, the number of symbols registered so far, and is appended to the
    list; a new symbol is refused with the capacity error once 1024 symbols
    are registered; and no call of the interface removes or reorders
    registered symbols. *)
Theorem registry_slots st :
  reachable st →
  MAX_TICKERS = 1024 ∧
  getAvailableTickers st = (Return (symbols st), st) ∧
  NoDup (symbols st) ∧ length (symbols st) ≤ MAX_TICKERS ∧
  (∀ k s, symbols st !! k = Some s → getTickerIndex s st = (Return k, st)) ∧
  (∀ s, s ∉ symbols st → length (symbols st) < MAX_TICKERS →
     ∃ st', getTickerIndex s st = (Return (length (symbols st)), st') ∧
            symbols st' = symbols st ++ [s] ∧
            getTickerIndex s st' = (Return (length (symbols st)), st')) ∧
  (∀ s, s ∉ symbols st → length (symbols st) = MAX_TICKERS →
     ∃ e, getTickerIndex s st = (Throw e, st) ∧ CapacityExceeded e) ∧
  (∀ c, symbols st `prefix_of` symbols (after c st)).
Proof.
  intros Hreach. assert (HI := reachable_Inv st Hreach).
  assert (Hlen : length (symbols st) = nextIndex (orderStorage st)).
  { unfold symbols. rewrite length_fmap. symmetry. apply (inv_next st HI). }
  split; [reflexivity|]. split; [reflexivity|]. split; [apply (inv_nodup st HI)|].
  split; [rewrite Hlen; apply (inv_cap st HI)|]. split; [|split; [|split]].
  - intros k s Hk. apply getTickerIndex_known.
    apply findTicker_lookup; [apply (inv_index st HI)|apply (inv_nodup st HI)|exact Hk].
  - intros s Hs Hlt. apply findTicker_None in Hs.
    rewrite getTickerIndex_run, Hs. rewrite Hlen in *.
    apply Nat.ltb_lt in Hlt. rewrite Hlt. eexists. split; [reflexivity|]. split.
    + unfold symbols. proj. rewrite fmap_app. reflexivity.
    + apply getTickerIndex_known. proj. apply findTicker_registered. exact Hs.
  - intros s Hs Hfull. apply findTicker_None in Hs.
    rewrite getTickerIndex_run, Hs. rewrite Hlen in Hfull. rewrite Hfull.
    rewrite Nat.ltb_irrefl. exists MaxTickersReached. split; reflexivity.
  - intros c. apply after_spec. exact HI.
Qed.

Lemma registry_slots_witness :
  let st := after (CallGetBuyOrders "MSFT") (after (CallAddOrder buy "AAPL" 10 50) (init clk0)) in
  symbols st = ["AAPL"; "MSFT"] ∧
  getTickerIndex "MSFT" st = (Return 1, st) ∧
  (∃ st', getTickerIndex "TSLA" st = (Return 2, st') ∧
          symbols st' = ["AAPL"; "MSFT"; "TSLA"]).
Proof.
  intros st.
  assert (Hr : reachable st) by (repeat constructor).
  assert (Hs : symbols st = ["AAPL"; "MSFT"]) by (vm_compute; reflexivity).
  destruct (registry_slots st Hr) as (_ & _ & _ & _ & Hknown & Hnew & _).
  split; [exact Hs|]. split.
  - apply Hknown. rewrite Hs. reflexivity.
  - destruct (Hnew "TSLA") as (st' & Hrun & Hsym & _).
    + rewrite Hs. rewrite !not_elem_of_cons.
      split; [discriminate|]. split; [discriminate|]. apply not_elem_of_nil.
    + rewrite Hs. unfold MAX_TICKERS. simpl. lia.
    + exists st'. rewrite Hs in Hrun, Hsym. split; [exact Hrun|exact Hsym].
Defined.

(** The capacity of the registry on an example: after 1024 distinct symbols
    have been seen, each resolves to the slot of its first occurrence, a
    further symbol is refused, and the query for it changes nothing. *)
Example registry_capacity :
  let st := queryAll (tickerName <$> seq 0 1024) (init clk0) in
  symbols st = tickerName <$> seq 0 1024 ∧
  (getTickerIndex (tickerName 0) st).1 = Return 0 ∧
  (getTickerIndex (tickerName 1023) st).1 = Return 1023 ∧
  (getTickerIndex (tickerName 1024) st).1 = Throw MaxTickersReached ∧
  (TradingEngine.getBuyOrders (tickerName 1024) st).1 = Return [] ∧
  symbols (after (CallGetBuyOrders (tickerName 1024)) st) = symbols st.
Proof. vm_compute. repeat split. Qed.

(** C10. A book query is not a pure read.  In every reachable state, asking
    for the buy or sell orders of a symbol that was never seen returns an
    empty array; while the registry has room the query registers the symbol
    (it is appended to [symbols()], the registry is no longer what it was)
    although no order was created or logged; when the registry is full the
    query leaves the whole state unchanged. *)
Theorem query_registers_symbol st s :
  reachable st → s ∉ symbols st →
  (length (symbols st) < MAX_TICKERS →
     ∃ st', TradingEngine.getBuyOrders s st = (Return [], st') ∧
            TradingEngine.getSellOrders s st = (Return [], st') ∧
            symbols st' = symbols st ++ [s] ∧ symbols st' ≠ symbols st ∧
            getAvailableTickers st' = (Return (symbols st ++ [s]), st') ∧
            heap st' = heap st ∧ transactions st' = transactions st) ∧
  (length (symbols st) = MAX_TICKERS →
     TradingEngine.getBuyOrders s st = (Return [], st) ∧
     TradingEngine.getSellOrders s st = (Return [], st)).
Proof.
  intros Hreach Hs. assert (HI := reachable_Inv st Hreach).
  assert (Hlen : length (symbols st) = nextIndex (orderStorage st)).
  { unfold symbols. rewrite length_fmap. symmetry. apply (inv_next st HI). }
  apply findTicker_None in Hs.
  unfold TradingEngine.getBuyOrders, TradingEngine.getSellOrders,
    OrderStorage.getBuyOrders, OrderStorage.getSellOrders.
  rewrite !bind_run, tryTickerIndex_run, Hs. rewrite Hlen. split.
  - intros Hlt. assert (Hlt' := Hlt). apply Nat.ltb_lt in Hlt'. rewrite Hlt'.
    set (k := nextIndex (orderStorage st)) in *.
    set (st' := set_orderStorage (register (mkEntry s k)) st).
    destruct (side_lookup st buy k HI Hlt) as [lb Hlb].
    destruct (side_lookup st sell k HI Hlt) as [ls Hls].
    assert (lb = []) as -> by (eapply (empty_slot st); [exact HI|left; exact Hlb]).
    assert (ls = []) as -> by (eapply (empty_slot st); [exact HI|right; exact Hls]).
    exists st'.
    split; [apply (sideArray_run buy k [] st'); exact Hlb|].
    split; [apply (sideArray_run sell k [] st'); exact Hls|].
    assert (Hsym : symbols st' = symbols st ++ [s]).
    { unfold symbols, st'. proj. rewrite fmap_app. reflexivity. }
    split; [exact Hsym|]. split.
    + rewrite Hsym. intros H. apply (f_equal length) in H.
      rewrite length_app in H. simpl in H. lia.
    + split; [|split; reflexivity].
      unfold getAvailableTickers, getAllTickers. mrun. fold (symbols st').
      rewrite Hsym. reflexivity.
  - intros Hfull. rewrite Hfull, Nat.ltb_irrefl. split; reflexivity.
Qed.

Lemma query_registers_symbol_witness :
  let st := init clk0 in
  reachable st ∧ ("AAPL" ∉ symbols st) ∧ length (symbols st) < MAX_TICKERS ∧
  ∃ st', TradingEngine.getBuyOrders "AAPL" st = (Return [], st') ∧
         symbols st' = ["AAPL"] ∧ transactions st' = [] ∧ heap st' = [].
Proof.
  intros st.
  assert (Hr : reachable st) by constructor.
  assert (Hs : "AAPL" ∉ symbols st) by apply not_elem_of_nil.
  assert (Hl : length (symbols st) < MAX_TICKERS) by (unfold MAX_TICKERS; simpl; lia).
  split; [exact Hr|]. split; [exact Hs|]. split; [exact Hl|].
  destruct (query_registers_symbol st "AAPL" Hr Hs) as [Hroom _].
  destruct (Hroom Hl) as (st' & Hb & _ & Hsym & _ & _ & Hh & Ht).
  exists st'. split; [exact Hb|]. split; [exact Hsym|]. split; [exact Ht|exact Hh].
Defined.

(** A validated order that is placed in the book and meets no counterparty:
    what [addOrder] does, in terms of the state [stC] after the order was
    created.  The call returns when the ledger update does; the order is in
    the book either way. *)
Lemma unmatched_order_run t sym qty prc st r :
  Inv st →
  (validate t sym qty prc st).1 = Return tt →
  (createOrder t sym qty prc st).1 = Return r →
  (matchOrder r (createOrder t sym qty prc st).2).1 = Return [] →
  let stC := (createOrder t sym qty prc st).2 in
  let o := newOrder st t sym qty prc in
  let stF := (addOrder t sym qty prc st).2 in
  Inv stC ∧ Inv stF ∧ heap stC !! r = Some o ∧
  orderStorage stF = orderStorage stC ∧
  (fieldOfKey sym = None → (addOrder t sym qty prc st).1 = Return r) ∧
  ((addOrder t sym qty prc st).1 = Return r →
     heap stF = <[r := settled o]> (heap stC) ∧
     transactions stF = transactions st ++ [synthetic stC o]) ∧
  ((addOrder t sym qty prc st).1 ≠ Return r →
     (addOrder t sym qty prc st).1 = Throw TypeError ∧
     heap stF = heap stC ∧ transactions stF = transactions st) ∧
  ∃ k l, findTicker sym (tickerToIndex (orderStorage stC)) = Some k ∧
         side t (orderStorage stC) !! k = Some l ∧ r ∈ l.
Proof.
  intros HI Hv Hc Hm stC o stF.
  assert (Hval : validate t sym qty prc st = (Return tt, st)).
  { rewrite (run_pair _ _ _ Hv), validate_state. reflexivity. }
  destruct (createOrder_spec t sym qty prc st HI)
    as (stC' & HIC & HhC & Hsame & _ & _ & Hcases).
  destruct Hcases as [(Hcreate & _ & k & l & Hf & Hl & Hrl)|(Hcreate & _)].
  2:{ rewrite Hcreate in Hc. discriminate. }
  assert (stC = stC') by (unfold stC; rewrite Hcreate; reflexivity). subst stC'.
  assert (r = length (heap st)) by (rewrite Hcreate in Hc; simpl in Hc; congruence).
  subst r. set (r := length (heap st)) in *.
  assert (HrC : heap stC !! r = Some o).
  { rewrite HhC. apply list_lookup_middle. reflexivity. }
  assert (HfC : findTicker (tickerSymbol o) (tickerToIndex (orderStorage stC)) = Some k)
    by exact Hf.
  assert (Hmatch : matchOrder r stC = (Return [], stC)).
  { assert (Hm' : (matchOrder r stC).1 = Return []) by exact Hm.
    destruct (matchOrder r stC) as [out stM] eqn:Hrun. simpl in Hm'. subst out.
    destruct (matchOrder_spec stC r o k [] stM HIC HrC HfC Hrun) as (_ & _ & Hnil & _).
    rewrite (Hnil eq_refl). reflexivity. }
  assert (Hadd : addOrder t sym qty prc st =
                 match settle t r [] stC with
                 | (Return _, st') => (Return r, st')
                 | (Throw e, st') => (Throw e, st')
                 end).
  { unfold addOrder. rewrite bind_run, Hval. cbn beta iota.
    rewrite bind_run, Hcreate. cbn beta iota.
    rewrite bind_run, Hmatch. cbn beta iota. rewrite bind_run.
    destruct (settle t r [] stC) as [[[]|e] st']; reflexivity. }
  destruct (settle t r [] stC) as [out st'] eqn:Hsettle.
  destruct (settle_fill stC t r o k out st' HIC HrC eq_refl HfC Hsettle)
    as (Hout & Hcase).
  assert (Hlog : transactions stC = transactions st) by (apply Hsame).
  assert (HIF : Inv stF).
  { unfold stF. apply (addOrder_frame t sym qty prc st HI). }
  split; [exact HIC|]. split; [exact HIF|]. split; [exact HrC|].
  unfold stF. rewrite Hadd.
  destruct Hcase as [(-> & Hs & Hh & Ht & _)|(-> & Hs & Hh & Ht)]; cbn [fst snd].
  - split; [exact Hs|]. split; [reflexivity|]. split.
    + intros _. split; [exact Hh|]. rewrite Ht, Hlog. reflexivity.
    + split; [intros H; contradiction|]. exists k, l. auto.
  - split; [exact Hs|]. split.
    + intros Hk. exfalso.
      assert (HI2 : Inv (set_ticks S (set_transactionCounter S (set_ticks S stC))))
        by (eapply Inv_frame; [| | |exact HIC]; reflexivity).
      rewrite (updatePortfolio_returns (synthetic stC o) _ HI2) in Hout; [discriminate|].
      unfold synthetic. destruct (type o); exact Hk.
    + split; [discriminate|]. split.
      * intros _. split; [reflexivity|]. split; [exact Hh|]. rewrite Ht. exact Hlog.
      * exists k, l. auto.
Qed.

(** C2, as amended.  An order settled by the synthetic fill stays in the
    book.  Let a validated order be placed in the book and meet no
    counterparty.  If its symbol is not the name of a field of a position
    (["shares"], ["averageBuyPrice"], ["currentValue"]), [addOrder] returns;
    and whenever [addOrder] returns, the snapshot of the order's own side
    and symbol taken afterwards holds the order object, which is matched
    with nothing remaining (so that the matcher will skip it), and no other
    element of the snapshot carries its identifier. *)
Theorem fallback_order_in_book t sym qty prc st r :
  Inv st →
  (validate t sym qty prc st).1 = Return tt →
  (createOrder t sym qty prc st).1 = Return r →
  (matchOrder r (createOrder t sym qty prc st).2).1 = Return [] →
  fieldOfKey sym = None ∨ (addOrder t sym qty prc st).1 = Return r →
  ∃ stF l o,
    addOrder t sym qty prc st = (Return r, stF) ∧
    snapshot t sym stF = (Return l, stF) ∧
    r ∈ l ∧ heap stF !! r = Some o ∧
    status o = matched ∧ remainingQuantity o = 0%float ∧
    (∀ r' o', r' ∈ l → heap stF !! r' = Some o' → oid o' = oid o → r' = r).
Proof.
  intros HI Hv Hc Hm Hret.
  destruct (unmatched_order_run t sym qty prc st r HI Hv Hc Hm)
    as (HIC & HIF & Hr & Hs & Hord & Hok & _ & k & l & Hf & Hl & Hrl).
  assert (Hadd : (addOrder t sym qty prc st).1 = Return r).
  { destruct Hret as [Hk|Hret]; [exact (Hord Hk)|exact Hret]. }
  destruct (Hok Hadd) as [Hh _].
  set (stC := (createOrder t sym qty prc st).2) in *.
  set (o := newOrder st t sym qty prc) in *.
  set (stF := (addOrder t sym qty prc st).2) in *.
  assert (HrF : heap stF !! r = Some (settled o)).
  { rewrite Hh. apply list_lookup_insert_eq. eapply lookup_lt_Some. exact Hr. }
  rewrite <- Hs in Hf, Hl.
  exists stF, l, (settled o). split; [apply run_pair; exact Hadd|]. split.
  - destruct t; simpl.
    + destruct (getBuyOrders_known stF sym k HIF Hf) as (l' & Hl' & Hget).
      unfold TradingEngine.getBuyOrders. rewrite Hget.
      simpl in Hl. congruence.
    + destruct (getSellOrders_known stF sym k HIF Hf) as (l' & Hl' & Hget).
      unfold TradingEngine.getSellOrders. rewrite Hget.
      simpl in Hl. congruence.
  - split; [exact Hrl|]. split; [exact HrF|]. split; [reflexivity|].
    split; [reflexivity|].
    intros r' o' _ Hr' Hid. exact (inv_uniq stF HIF r' r o' (settled o) Hr' HrF Hid).
Qed.

Lemma fallback_order_in_book_witness :
  let st := init clk0 in
  ∃ stF l o,
    addOrder buy "AAPL" 10 50 st = (Return 0, stF) ∧
    snapshot buy "AAPL" stF = (Return l, stF) ∧
    0 ∈ l ∧ heap stF !! 0 = Some o ∧ status o = matched.
Proof.
  intros st.
  destruct (fallback_order_in_book buy "AAPL" 10 50 st 0 (Inv_init clk0))
    as (stF & l & o & Hadd & Hsnap & Hin & Hr & Hst & _);
    [vm_compute; reflexivity|vm_compute; reflexivity|vm_compute; reflexivity
    |left; reflexivity|].
  exists stF, l, o. auto.
Defined.

(** C2 as stated fails: a buy of 10 at 50 for "AAPL" submitted to a fresh
    engine is settled by the synthetic fill (one transaction, against
    ['auto-filled']), and the snapshot of the bids for "AAPL" taken afterwards
    holds an order with the identifier of that very order. *)
Lemma fallback_order_leaves_book_counterexample :
  let res := addOrder buy "AAPL" 10 50 (init clk0) in
  res.1 = Return 0 ∧
  (matchOrder 0 (createOrder buy "AAPL" 10 50 (init clk0)).2).1 = Return [] ∧
  sellOrderId <$> transactions res.2 = [AUTO] ∧
  oid <$> heap res.2 !! 0 = Some "order-1700000000000-0" ∧
  ¬ (∀ l, (snapshot buy "AAPL" res.2).1 = Return l →
       ∀ c oc, c ∈ l → heap res.2 !! c = Some oc →
               oid oc ≠ "order-1700000000000-0").
Proof.
  intros res.
  split; [vm_compute; reflexivity|]. split; [vm_compute; reflexivity|].
  split; [vm_compute; reflexivity|]. split; [vm_compute; reflexivity|].
  intros H.
  assert (Hsnap : (snapshot buy "AAPL" res.2).1 = Return [0]) by (vm_compute; reflexivity).
  assert (Hh : ∃ oc, heap res.2 !! 0 = Some oc ∧ oid oc = "order-1700000000000-0").
  { vm_compute. eexists. split; reflexivity. }
  destruct Hh as (oc & Hoc & Hid).
  apply (H [0] Hsnap 0 oc); [left|exact Hoc|exact Hid].
Qed.

Lemma createOrder_Inv t sym qty prc st :
  Inv st → Inv (createOrder t sym qty prc st).2.
Proof.
  intros HI.
  destruct (createOrder_spec t sym qty prc st HI)
    as (st' & HI' & _ & _ & _ & _ & [(Hc & _)|(Hc & _)]); rewrite Hc; exact HI'.
Qed.

(** C4. The price of a crossing.  Let the incoming order [o] (with its
    symbol registered, as [addOrder] has it) be matched in a state that
    satisfies the invariant.  Every transaction that [matchOrder] returns
    names [o] and an order [oc] of the opposite side of the book of the same
    symbol, and its price is the price of [oc] when [oc] has the earlier
    timestamp, and the price of [o] when [o] has the earlier timestamp or the
    two timestamps are equal. *)
Theorem crossing_price st r o k txs :
  Inv st → heap st !! r = Some o →
  findTicker (tickerSymbol o) (tickerToIndex (orderStorage st)) = Some k →
  (matchOrder r st).1 = Return txs →
  ∀ tx, tx ∈ txs →
    ∃ c oc l,
      side (opposite (type o)) (orderStorage st) !! k = Some l ∧ c ∈ l ∧
      heap st !! c = Some oc ∧
      buyOrderId tx = (match type o with buy => oid o | sell => oid oc end) ∧
      sellOrderId tx = (match type o with sell => oid o | buy => oid oc end) ∧
      ((timestamp oc < timestamp o)%Z → tx_price tx = price oc) ∧
      ((timestamp o < timestamp oc)%Z → tx_price tx = price o) ∧
      (timestamp o = timestamp oc → tx_price tx = price o).
Proof.
  intros HI Hr Hf Hrun tx Htx.
  destruct (matchOrder_spec st r o k txs _ HI Hr Hf (run_pair _ _ _ Hrun))
    as (l & Hl & _ & Hall).
  destruct (Hall tx Htx) as (c & oc & Hc & Hoc & Hprice & Hb & Hs & _).
  exists c, oc, l. split; [exact Hl|]. split; [exact Hc|]. split; [exact Hoc|].
  split; [exact Hb|]. split; [exact Hs|].
  rewrite Hprice. unfold transactionPrice.
  destruct (Z.ltb_spec (timestamp oc) (timestamp o)) as [Hlt|Hge].
  - split; [reflexivity|]. split; intros; lia.
  - split; [intros; lia|]. split; reflexivity.
Qed.

Lemma crossing_price_witness :
  let stA := (createOrder sell "TSLA" 10 30 (init clk0)).2 in
  let st := (createOrder buy "TSLA" 10 35 stA).2 in
  ∃ tx o oc,
    (matchOrder 1 st).1 = Return [tx] ∧
    heap st !! 1 = Some o ∧ heap st !! 0 = Some oc ∧
    (timestamp oc < timestamp o)%Z ∧
    price o = 35%float ∧ price oc = 30%float ∧ tx_price tx = 30%float.
Proof.
  intros stA st.
  assert (HIA : Inv stA) by (apply createOrder_Inv; apply Inv_init).
  assert (HI : Inv st) by (apply createOrder_Inv; exact HIA).
  assert (Ho : ∃ o, heap st !! 1 = Some o ∧ price o = 35%float ∧
                    timestamp o = 1700000000001%Z ∧ type o = buy ∧
                    tickerSymbol o = "TSLA").
  { vm_compute. eexists. repeat split. }
  destruct Ho as (o & Ho & Hpo & Hto & Hty & Hsym).
  assert (Hoc : ∃ oc, heap st !! 0 = Some oc ∧ price oc = 30%float ∧
                      timestamp oc = 1700000000000%Z).
  { vm_compute. eexists. repeat split. }
  destruct Hoc as (oc & Hoc & Hpoc & Htoc).
  assert (Hrun : ∃ tx, (matchOrder 1 st).1 = Return [tx]).
  { vm_compute. eexists. reflexivity. }
  destruct Hrun as (tx & Hrun).
  assert (Hf : findTicker (tickerSymbol o) (tickerToIndex (orderStorage st)) = Some 0).
  { rewrite Hsym. vm_compute. reflexivity. }
  destruct (crossing_price st 1 o 0 [tx] HI Ho Hf Hrun tx)
    as (c & oc' & l & Hl & Hc & Hoc' & _ & _ & Hold & _); [left|].
  assert (Hl0 : side (opposite (type o)) (orderStorage st) !! 0 = Some [0]).
  { rewrite Hty. vm_compute. reflexivity. }
  rewrite Hl0 in Hl. injection Hl as <-.
  apply list_elem_of_singleton in Hc. subst c.
  rewrite Hoc in Hoc'. injection Hoc' as <-.
  exists tx, o, oc. split; [exact Hrun|]. split; [exact Ho|]. split; [exact Hoc|].
  assert (Hlt : (timestamp oc < timestamp o)%Z) by (rewrite Hto, Htoc; reflexivity).
  split; [exact Hlt|]. split; [exact Hpo|]. split; [exact Hpoc|].
  rewrite (Hold Hlt). exact Hpoc.
Defined.

(** The tie-break of C4 on an example: with a clock that does not advance,
    the resting sell at 30 and the incoming buy at 35 carry the same
    timestamp, and they cross at the price of the incoming order. *)
Example crossing_price_tie :
  let clk := λ _ : nat, 1700000000000%Z in
  let stA := (createOrder sell "TSLA" 10 30 (init clk)).2 in
  let st := (createOrder buy "TSLA" 10 35 stA).2 in
  (timestamp <$> heap st) = [1700000000000%Z; 1700000000000%Z] ∧
  ∃ tx, (matchOrder 1 st).1 = Return [tx] ∧ tx_price tx = 35%float.
Proof. vm_compute. split; [reflexivity|]. eexists. split; reflexivity. Qed.

(** ** The recent transactions *)

Lemma cmpRecent_le a b : (cmpRecent a b <= 0)%Q ↔ (tx_timestamp b ≤ tx_timestamp a)%Z.
Proof. unfold cmpRecent. rewrite inject_Z_nonpos. lia. Qed.

(** The sort is stable: it keeps the elements of equal key in their order. *)
Lemma insertBy_filter {A} (cmp : A → A → Q) (P : A → Prop) `{∀ x, Decision (P x)} x l :
  (∀ y, P x → P y → (cmp x y <= 0)%Q) →
  filter P (insertBy cmp x l) = filter P (x :: l).
Proof.
  intros Hkey. induction l as [|y l IH]; simpl; [reflexivity|].
  change (nonpos (cmp x y)) with (Qle_bool (cmp x y) 0).
  destruct (Qle_bool (cmp x y) 0) eqn:Hc; [reflexivity|].
  rewrite (filter_cons P y), IH, !(filter_cons P x), (filter_cons P y).
  destruct (decide (P x)) as [Hx|Hx], (decide (P y)) as [Hy|Hy]; try reflexivity.
  exfalso. specialize (Hkey y Hx Hy). apply Qle_bool_iff in Hkey. congruence.
Qed.

Lemma sortBy_filter {A} (cmp : A → A → Q) (P : A → Prop) `{∀ x, Decision (P x)} l :
  (∀ x y, P x → P y → (cmp x y <= 0)%Q) →
  filter P (sortBy cmp l) = filter P l.
Proof.
  intros Hkey. induction l as [|x l IH]; simpl; [reflexivity|].
  rewrite insertBy_filter by (apply Hkey).
  rewrite !filter_cons, IH. reflexivity.
Qed.

Lemma slice0_nonneg {A} (l : list A) n : (0 ≤ n)%Z → slice0 l n = take (Z.to_nat n) l.
Proof.
  intros Hn. unfold slice0. destruct (Z.ltb_spec n 0); [lia|reflexivity].
Qed.

(** C8. The recent transactions.  For a count [n ≥ 0],
    [getRecentTransactions(n)] returns, without changing the state, a list
    [res] of [min n (size of the log)] transactions, hence at most [n]; [res]
    and the transactions left out make up the log; no transaction left out
    is more recent than one returned; [res] is ordered by timestamp
    descending; and the transactions of one timestamp appear in [res] in the
    order of the log, the earliest logged first. *)
Theorem recent_transactions st n :
  (0 ≤ n)%Z →
  ∃ res rest,
    getRecentTransactions n st = (Return res, st) ∧
    (Z.of_nat (length res) ≤ n)%Z ∧
    length res = Nat.min (Z.to_nat n) (length (transactions st)) ∧
    Permutation (res ++ rest) (transactions st) ∧
    (∀ a b, a ∈ res → b ∈ rest → (tx_timestamp b ≤ tx_timestamp a)%Z) ∧
    (∀ i j a b, i < j → res !! i = Some a → res !! j = Some b →
                (tx_timestamp b ≤ tx_timestamp a)%Z) ∧
    (∀ t, filter (λ x, tx_timestamp x = t) res
            `prefix_of` filter (λ x, tx_timestamp x = t) (transactions st)).
Proof.
  intros Hn.
  set (sorted := sortBy cmpRecent (transactions st)).
  assert (Hperm : Permutation sorted (transactions st)) by apply sortBy_Permutation.
  assert (Hsorted : StronglySorted (λ a b, nonpos (cmpRecent a b) = true) sorted).
  { apply sortBy_sorted.
    - intros x y. unfold nonpos, Q_result. rewrite !Qle_bool_iff, !cmpRecent_le. lia.
    - intros x y z. unfold nonpos, Q_result. rewrite !Qle_bool_iff, !cmpRecent_le. lia. }
  exists (take (Z.to_nat n) sorted), (drop (Z.to_nat n) sorted).
  split.
  { unfold getRecentTransactions. mrun. rewrite slice0_nonneg by exact Hn. reflexivity. }
  assert (Hlen : length (take (Z.to_nat n) sorted) =
                 Nat.min (Z.to_nat n) (length (transactions st))).
  { rewrite length_take. rewrite (Permutation_length Hperm). reflexivity. }
  split; [rewrite Hlen; lia|]. split; [exact Hlen|].
  split; [rewrite take_drop; exact Hperm|]. split; [|split].
  - intros a b Ha Hb.
    apply list_elem_of_lookup in Ha as [i Hi]. apply list_elem_of_lookup in Hb as [j Hj].
    assert (i < Z.to_nat n) by (apply lookup_lt_Some in Hi; rewrite length_take in Hi; lia).
    rewrite lookup_take_lt in Hi by assumption. rewrite lookup_drop in Hj.
    apply cmpRecent_le, Qle_bool_iff.
    refine (StronglySorted_lookup_lt (λ a b, nonpos (cmpRecent a b) = true) sorted i
              (Z.to_nat n + j) a b Hsorted _ Hi Hj). lia.
  - intros i j a b Hij Hi Hj.
    assert (j < Z.to_nat n) by (apply lookup_lt_Some in Hj; rewrite length_take in Hj; lia).
    rewrite lookup_take_lt in Hi, Hj by lia.
    apply cmpRecent_le, Qle_bool_iff.
    exact (StronglySorted_lookup_lt (λ a b, nonpos (cmpRecent a b) = true) sorted i j a b
             Hsorted Hij Hi Hj).
  - intros t.
    rewrite <- (sortBy_filter cmpRecent (λ x, tx_timestamp x = t) (transactions st)).
    + fold sorted. rewrite <- (take_drop (Z.to_nat n) sorted) at 2.
      rewrite filter_app. apply prefix_app_r. reflexivity.
    + intros x y Hx Hy. apply cmpRecent_le. lia.
Qed.

Lemma recent_transactions_witness :
  let st := after (CallAddOrder buy "NVDA" 3 70)
              (after (CallAddOrder buy "MSFT" 2 60)
                 (after (CallAddOrder buy "AAPL" 1 50) (init clk8))) in
  (tx_id <$> transactions st) = ["tx-1700000000000-0"; "tx-1700000000000-1"; "tx-1700000000001-2"] ∧
  (tx_timestamp <$> transactions st) = [1700000000000; 1700000000000; 1700000000001]%Z ∧
  ∃ res, getRecentTransactions 2 st = (Return res, st) ∧
         (tx_id <$> res) = ["tx-1700000000001-2"; "tx-1700000000000-0"] ∧
         (Z.of_nat (length res) ≤ 2)%Z.
Proof.
  intros st.
  split; [vm_compute; reflexivity|]. split; [vm_compute; reflexivity|].
  destruct (recent_transactions st 2 ltac:(lia)) as (res & rest & Hrun & Hle & _).
  exists res. split; [exact Hrun|]. split; [|exact Hle].
  assert (H : match (getRecentTransactions 2 st).1 with
              | Return l => tx_id <$> l
              | Throw _ => []
              end = ["tx-1700000000001-2"; "tx-1700000000000-0"]) by (vm_compute; reflexivity).
  rewrite Hrun in H. exact H.
Defined.

(** ** Where the code departs from the specification

    The examples of this section run the engine on inputs for which it does
    not do what the specification, the messages of its errors and its own
    comments say. *)

(** C1 fails in the code.  A buy for ["__proto__"] writes [currentValue = 50]
    on [Object.prototype].  A buy of 1 at 1 for ["currentValue"] is then
    validated, placed in the book and meets no counterparty; the ledger finds
    the number 50 under the symbol, and the assignment of a property to it
    raises a [TypeError] before the synthetic transaction is logged.  The
    call throws, nothing is logged, and the order is left in the book,
    pending, with its whole quantity remaining. *)
Example synthetic_fill_type_error :
  let st := after (CallAddOrder buy "__proto__" 10 50) (init clk0) in
  let res := addOrder buy "currentValue" 1 1 st in
  x_currentValue (objectPrototype st) = Some 50%float ∧
  (validate buy "currentValue" 1 1 st).1 = Return tt ∧
  (createOrder buy "currentValue" 1 1 st).1 = Return 1 ∧
  (matchOrder 1 (createOrder buy "currentValue" 1 1 st).2).1 = Return [] ∧
  res.1 = Throw TypeError ∧
  length (transactions res.2) = length (transactions st) ∧
  (snapshot buy "currentValue" res.2).1 = Return [1] ∧
  (status <$> heap res.2 !! 1) = Some pending ∧
  (remainingQuantity <$> heap res.2 !! 1) = Some 1%float.
Proof. vm_compute. repeat split. Qed.

(** C3 fails in the code.  In a fresh engine no shares are held, and a sell
    of one share of "AAPL" is refused for lack of shares; but a sell of one
    share of ["constructor"] is accepted, because the ledger inherits a
    function under that name: the order is created, placed in the book and
    settled against ['market']. *)
Example sell_of_inherited_name_accepted :
  let st := init clk0 in
  let res := addOrder sell "constructor" 1 1 st in
  portfolioPositions st = ∅ ∧
  (∃ e, addOrder sell "AAPL" 1 1 st = (Throw e, st) ∧ InsufficientShares e) ∧
  res.1 = Return 0 ∧
  (buyOrderId <$> transactions res.2) = [MARKET] ∧
  (tx_tickerSymbol <$> transactions res.2) = ["constructor"] ∧
  (snapshot sell "constructor" res.2).1 = Return [0].
Proof.
  intros st res. split; [reflexivity|]. split.
  { exists (NotEnoughShares "AAPL" 0). split; [reflexivity|]. eexists _, _. reflexivity. }
  vm_compute. repeat split.
Qed.

(** C5 fails in the code.  A buy of 10 at 50 for "AAPL" in a fresh engine
    creates the position [{shares = 10, averageBuyPrice = 50}]; the same buy
    for ["toString"] creates no position: the ledger inherits a function
    under that name, and the update writes on that function, where shares and
    average price become NaN. *)
Example ledger_inherited_name :
  let st := init clk0 in
  let res := addOrder buy "toString" 10 50 st in
  portfolioPositions (addOrder buy "AAPL" 10 50 st).2 !! "AAPL" =
    Some (mkPosition "AAPL" 10 50 50) ∧
  res.1 = Return 0 ∧
  (sellOrderId <$> transactions res.2) = [AUTO] ∧
  portfolioPositions res.2 = ∅ ∧
  (is_nan <$> (builtins res.2 !! "toString" ≫= x_shares)) = Some true ∧
  (is_nan <$> (builtins res.2 !! "toString" ≫= x_averageBuyPrice)) = Some true ∧
  (builtins res.2 !! "toString" ≫= x_currentValue) = Some 50%float.
Proof. vm_compute. repeat split. Qed.

(** C6 fails in the code.  The validation [price <= 0] lets the price NaN
    through, and the comparator of the bids then returns NaN, which the sort
    takes for a tie.  After buys at 50, NaN and 60 the bids are in the order
    of their arrival, the bid at 50 before the bid at 60. *)
Example bids_unsorted_nan :
  let st := after (CallAddOrder buy "AAPL" 1 60)
              (after (CallAddOrder buy "AAPL" 1 nan)
                 (after (CallAddOrder buy "AAPL" 1 50) (init clk0))) in
  (TradingEngine.getBuyOrders "AAPL" st).1 = Return [0; 1; 2] ∧
  (price <$> heap st !! 0) = Some 50%float ∧
  (is_nan ∘ price <$> heap st !! 1) = Some true ∧
  (price <$> heap st !! 2) = Some 60%float ∧
  (50 <? 60)%float = true.
Proof. vm_compute. repeat split. Qed.

(** C7 fails in the code.  The validation [quantity <= 0] lets the quantity
    NaN through: the order is created with quantity NaN and filled, and what
    remains of it, 0, is not at most its quantity. *)
Example order_nan_quantity :
  let res := addOrder buy "AAPL" nan 50 (init clk0) in
  res.1 = Return 0 ∧
  ∃ o, heap res.2 !! 0 = Some o ∧ is_nan (quantity o) = true ∧
       status o = matched ∧ remainingQuantity o = 0%float ∧
       (remainingQuantity o <=? quantity o)%float = false.
Proof. vm_compute. split; [reflexivity|]. eexists. repeat split. Qed.
